(** * The query layer of the file uploader, over a model of its Prisma store

    The functions of the query module ([createFolder], [updateFolder],
    [deleteFolder], [findDescendantFolders], [findParentFolders],
    [findFolder], [createShareLink], [findShareLink], ...) are embedded as
    functions over an explicit store: the tables, as lists of rows in
    insertion order, the autoincrement counters and a journal of the
    statements that were executed.  Ids are the integers of an
    autoincrement column.  Queries are pure functions of the store; mutations live
    in a small state-and-exception monad.  The two recursive functions are
    defined by recursion on a number of nested calls they may make; the
    code has no such number, and what is proved of them is proved for every
    number that is large enough. *)

From stdpp Require Import base tactics option list relations numbers strings
  pretty.

Local Open Scope Z_scope.

(** ** Rows *)

Record User := mkUser {
  user_id : Z;
  user_firstName : string;
  user_lastName : string;
  user_username : string;
  user_password : string
}.

Record Folder := mkFolder {
  folder_id : Z;
  folder_name : string;
  folder_userId : Z;
  folder_parentId : option Z      (* [None] is the JavaScript [null] *)
}.

Record File := mkFile {
  file_id : Z;
  file_name : string;
  file_path : string;
  file_folderId : Z;
  file_size : Z
}.

Record ShareLink := mkShareLink {
  link_id : Z;
  link_folderId : Z;
  link_expiresAt : Z              (* a [Date], as milliseconds *)
}.

#[global] Instance User_eq_dec : EqDecision User.
Proof. solve_decision. Defined.
#[global] Instance Folder_eq_dec : EqDecision Folder.
Proof. solve_decision. Defined.
#[global] Instance File_eq_dec : EqDecision File.
Proof. solve_decision. Defined.
#[global] Instance ShareLink_eq_dec : EqDecision ShareLink.
Proof. solve_decision. Defined.

(** ** The store *)

(** One entry per statement that changed (or could have changed) a table. *)
Inductive Write :=
  | WCreateUser (id : Z)
  | WCreateFolder (id : Z)
  | WCreateFile (id : Z)
  | WCreateShareLink (id : Z)
  | WUpdateFolder (id : Z)
  | WDeleteFiles (folderId : Z)        (* file.deleteMany({ where: { folderId } }) *)
  | WDeleteShareLinks (folderId : Z)   (* shareLink.deleteMany({ where: { folderId } }) *)
  | WDeleteFolder (id : Z).            (* folder.delete({ where: { id } }) *)

#[global] Instance Write_eq_dec : EqDecision Write.
Proof. solve_decision. Defined.

Record Store := mkStore {
  users : list User;
  folders : list Folder;
  files : list File;
  shareLinks : list ShareLink;
  nextUserId : Z;
  nextFolderId : Z;
  nextFileId : Z;
  nextShareLinkId : Z;
  journal : list Write
}.

Definition emptyStore : Store :=
  mkStore [] [] [] [] 1 1 1 1 [].

(** The Prisma schema is not part of the query module, so what it declares
    beyond the columns is a parameter: whether references between tables are
    enforced by the database (a row may not point to a missing row, a row
    that is pointed to may not be deleted); whether (name, parentId) is a
    unique key of the folder table (with SQL's reading: rows whose parentId
    is null never collide); whether (name, folderId) is a unique key of the
    file table; and whether the size of a file is an Int column, which holds
    32-bit signed integers only.  The results below hold for every schema
    unless they say otherwise. *)
Record Schema := mkSchema {
  foreign_keys : bool;
  unique_sibling_names : bool;
  unique_file_names : bool;
  file_size_int : bool
}.

(** What a statement can throw, and what the query module throws itself. *)
Inductive Error :=
  | UniqueConstraintFailed        (* Prisma P2002 *)
  | ForeignKeyConstraintFailed    (* Prisma P2003 *)
  | RecordNotFound                (* Prisma P2025, update or delete of no row *)
  | ValueOutOfRange               (* Prisma P2020, a number the column cannot hold *)
  | TypeError                     (* property read on null *)
  | JsError (message : string).   (* throw new Error(message) *)

Inductive Outcome (A : Type) :=
  | Returned (a : A)
  | Thrown (e : Error).
Arguments Returned {A} a.
Arguments Thrown {A} e.

(** ** The monad of the mutating functions

    [None] is reserved for the recursive functions: the number of nested
    calls their definition was given was used up before the call returned.
    A result reached with some number is the result with every larger
    number ([findChildren_more_fuel], [deleteFolder_more_fuel]), and that
    is the result of the code; [None] for every number stands for a call
    that does not return. *)
Definition Db (A : Type) : Type := Store → option (Outcome A * Store).

#[global] Instance Db_ret : MRet Db := λ A a s, Some (Returned a, s).
#[global] Instance Db_bind : MBind Db := λ A B k m s,
  match m s with
  | None => None
  | Some (Thrown e, s') => Some (Thrown e, s')
  | Some (Returned a, s') => k a s'
  end.

Definition throw {A} (e : Error) : Db A := λ s, Some (Thrown e, s).
Definition query {A} (q : Store → A) : Db A := λ s, Some (Returned (q s), s).

Definition try_catch {A} (body : Db A) (handler : Error → Db A) : Db A := λ s,
  match body s with
  | Some (Thrown e, s') => handler e s'
  | r => r
  end.

(** [console.error(...); throw error]: the log line is not part of the
    store. *)
Definition log_and_rethrow {A} (e : Error) : Db A := throw e.

(** [for (const x of xs) { await body(x) }] *)
Fixpoint for_each {A} (body : A → Db ()) (xs : list A) : Db () :=
  match xs with
  | [] => mret ()
  | x :: xs' => body x ≫= λ _, for_each body xs'
  end.

(** ** The Prisma client *)

Module Prisma.

(** *** Reads *)

Definition user_findUnique_id (s : Store) (id : Z) : option User :=
  snd <$> list_find (λ u, user_id u = id) (users s).

Definition user_findUnique_username (s : Store) (username : string) : option User :=
  snd <$> list_find (λ u, user_username u = username) (users s).

Definition folder_findUnique (s : Store) (id : Z) : option Folder :=
  snd <$> list_find (λ f, folder_id f = id) (folders s).

Definition file_findUnique (s : Store) (id : Z) : option File :=
  snd <$> list_find (λ f, file_id f = id) (files s).

Definition shareLink_findUnique (s : Store) (id : Z) : option ShareLink :=
  snd <$> list_find (λ l, link_id l = id) (shareLinks s).

(** [folder.findMany({ where: { parentId } })] with a folder id *)
Definition folder_findMany_parentId (s : Store) (parentId : Z) : list Folder :=
  filter (λ f, folder_parentId f = Some parentId) (folders s).

(** [folder.findMany({ where: { userId, id: { notIn } } })] *)
Definition folder_findMany_userId_notIn (s : Store) (userId : Z) (notIn : list Z)
    : list Folder :=
  filter (λ f, folder_userId f = userId ∧ folder_id f ∉ notIn) (folders s).

(** [folder.findFirst({ where: { name, parentId } })] *)
Definition folder_findFirst_name_parentId (s : Store) (name : string)
    (parentId : option Z) : option Folder :=
  snd <$> list_find (λ f, folder_name f = name ∧ folder_parentId f = parentId)
            (folders s).

(** [folder.findFirst({ where: { userId, parentId: null } })] *)
Definition folder_findFirst_root (s : Store) (userId : Z) : option Folder :=
  snd <$> list_find (λ f, folder_userId f = userId ∧ folder_parentId f = None)
            (folders s).

(** [file.findFirst({ where: { name, folderId } })] *)
Definition file_findFirst_name_folderId (s : Store) (name : string) (folderId : Z)
    : option File :=
  snd <$> list_find (λ f, file_name f = name ∧ file_folderId f = folderId)
            (files s).

(** The relation fields [subfolders] and [files] of a folder. *)
Definition folder_subfolders (s : Store) (f : Folder) : list Folder :=
  folder_findMany_parentId s (folder_id f).

Definition folder_files (s : Store) (f : Folder) : list File :=
  filter (λ x, file_folderId x = folder_id f) (files s).

(** *** What the schema checks when a row is written *)

Definition folder_exists (s : Store) (id : Z) : bool :=
  bool_decide (id ∈ folder_id <$> folders s).

Definition user_exists (s : Store) (id : Z) : bool :=
  bool_decide (id ∈ user_id <$> users s).

(** A sibling clash: another row with the same name under the same,
    non-null, parent. *)
Definition sibling_clash (rows : list Folder) (row : Folder) : bool :=
  match folder_parentId row with
  | None => false
  | Some p =>
      bool_decide
        (Exists (λ f, folder_name f = folder_name row ∧ folder_parentId f = Some p)
           rows)
  end.

(** The checks on the parent column and on the sibling key; [others] are the
    rows the new or updated row is compared with. *)
Definition folder_violation (sch : Schema) (s : Store) (others : list Folder)
    (row : Folder) : option Error :=
  if foreign_keys sch &&
     negb (from_option (folder_exists s) true (folder_parentId row))
  then Some ForeignKeyConstraintFailed
  else if unique_sibling_names sch && sibling_clash others row
  then Some UniqueConstraintFailed
  else None.

(** Another file of the same name in the same folder. *)
Definition file_name_clash (rows : list File) (row : File) : bool :=
  bool_decide
    (Exists (λ x, file_name x = file_name row ∧ file_folderId x = file_folderId row)
       rows).

(** The values of an Int column. *)
Definition int32 (z : Z) : bool :=
  bool_decide (-2147483648 ≤ z ≤ 2147483647).

(** The checks on a new file row: the size column, the folder reference and
    the name key, each where the schema declares it. *)
Definition file_violation (sch : Schema) (s : Store) (row : File) : option Error :=
  if file_size_int sch && negb (int32 (file_size row))
  then Some ValueOutOfRange
  else if foreign_keys sch && negb (folder_exists s (file_folderId row))
  then Some ForeignKeyConstraintFailed
  else if unique_file_names sch && file_name_clash (files s) row
  then Some UniqueConstraintFailed
  else None.

Definition shareLink_violation (sch : Schema) (s : Store) (row : ShareLink)
    : option Error :=
  if foreign_keys sch && negb (folder_exists s (link_folderId row))
  then Some ForeignKeyConstraintFailed else None.

(** A folder row is referenced by its subfolders, its files and the share
    links that target it. *)
Definition folder_referenced (s : Store) (id : Z) : bool :=
  bool_decide (Exists (λ f, folder_parentId f = Some id) (folders s)) ||
  bool_decide (Exists (λ x, file_folderId x = id) (files s)) ||
  bool_decide (Exists (λ l, link_folderId l = id) (shareLinks s)).

(** *** Writes *)

Definition log (w : Write) (s : Store) : Store :=
  mkStore (users s) (folders s) (files s) (shareLinks s)
          (nextUserId s) (nextFolderId s) (nextFileId s) (nextShareLinkId s)
          (journal s ++ [w]).

Definition set_folders (rows : list Folder) (s : Store) : Store :=
  mkStore (users s) rows (files s) (shareLinks s)
          (nextUserId s) (nextFolderId s) (nextFileId s) (nextShareLinkId s)
          (journal s).

Definition set_files (rows : list File) (s : Store) : Store :=
  mkStore (users s) (folders s) rows (shareLinks s)
          (nextUserId s) (nextFolderId s) (nextFileId s) (nextShareLinkId s)
          (journal s).

Definition set_shareLinks (rows : list ShareLink) (s : Store) : Store :=
  mkStore (users s) (folders s) (files s) rows
          (nextUserId s) (nextFolderId s) (nextFileId s) (nextShareLinkId s)
          (journal s).

(** [user.create]: the username is a unique key (it is looked up with
    [findUnique]). *)
Definition user_create (firstName lastName username password : string) : Db User :=
  λ s,
    let row := mkUser (nextUserId s) firstName lastName username password in
    if bool_decide (username ∈ user_username <$> users s)
    then Some (Thrown UniqueConstraintFailed, s)
    else Some (Returned row,
               log (WCreateUser (user_id row))
                 (mkStore (users s ++ [row]) (folders s) (files s) (shareLinks s)
                    (nextUserId s + 1) (nextFolderId s) (nextFileId s)
                    (nextShareLinkId s) (journal s))).

Definition folder_create (sch : Schema) (name : string) (userId : Z)
    (parentId : option Z) : Db Folder := λ s,
  let row := mkFolder (nextFolderId s) name userId parentId in
  if foreign_keys sch && negb (user_exists s userId)
  then Some (Thrown ForeignKeyConstraintFailed, s)
  else
    match folder_violation sch s (folders s) row with
    | Some e => Some (Thrown e, s)
    | None =>
        Some (Returned row,
              log (WCreateFolder (folder_id row))
                (mkStore (users s) (folders s ++ [row]) (files s) (shareLinks s)
                   (nextUserId s) (nextFolderId s + 1) (nextFileId s)
                   (nextShareLinkId s) (journal s)))
    end.

Definition file_create (sch : Schema) (name path : string) (folderId size : Z)
    : Db File := λ s,
  let row := mkFile (nextFileId s) name path folderId size in
  match file_violation sch s row with
  | Some e => Some (Thrown e, s)
  | None =>
      Some (Returned row,
            log (WCreateFile (file_id row))
              (mkStore (users s) (folders s) (files s ++ [row]) (shareLinks s)
                 (nextUserId s) (nextFolderId s) (nextFileId s + 1)
                 (nextShareLinkId s) (journal s)))
  end.

Definition shareLink_create (sch : Schema) (folderId expiresAt : Z)
    : Db ShareLink := λ s,
  let row := mkShareLink (nextShareLinkId s) folderId expiresAt in
  match shareLink_violation sch s row with
  | Some e => Some (Thrown e, s)
  | None =>
      Some (Returned row,
            log (WCreateShareLink (link_id row))
              (mkStore (users s) (folders s) (files s) (shareLinks s ++ [row])
                 (nextUserId s) (nextFolderId s) (nextFileId s)
                 (nextShareLinkId s + 1) (journal s)))
  end.

(** [folder.update({ where: { id }, data: { name, parentId } })] *)
Definition folder_update (sch : Schema) (id : Z) (name : string)
    (parentId : option Z) : Db Folder := λ s,
  match folder_findUnique s id with
  | None => Some (Thrown RecordNotFound, s)
  | Some old =>
      let row := mkFolder id name (folder_userId old) parentId in
      let others := filter (λ f, folder_id f ≠ id) (folders s) in
      match folder_violation sch s others row with
      | Some e => Some (Thrown e, s)
      | None =>
          Some (Returned row,
                log (WUpdateFolder id)
                  (set_folders
                     ((λ f, if decide (folder_id f = id) then row else f)
                        <$> folders s) s))
      end
  end.

(** [folder.delete({ where: { id } })].  Where references are enforced, a
    row that is still referenced is refused; [deleteFolder] removes the
    references first, so that case arises in none of its runs on a tree. *)
Definition folder_delete (sch : Schema) (id : Z) : Db Folder := λ s,
  match folder_findUnique s id with
  | None => Some (Thrown RecordNotFound, s)
  | Some old =>
      if foreign_keys sch && folder_referenced s id
      then Some (Thrown ForeignKeyConstraintFailed, s)
      else Some (Returned old,
                 log (WDeleteFolder id)
                   (set_folders (filter (λ f, folder_id f ≠ id) (folders s)) s))
  end.

(** [file.deleteMany({ where: { folderId } })] *)
Definition file_deleteMany (folderId : Z) : Db () := λ s,
  Some (Returned (),
        log (WDeleteFiles folderId)
          (set_files (filter (λ x, file_folderId x ≠ folderId) (files s)) s)).

(** [shareLink.deleteMany({ where: { folderId } })] *)
Definition shareLink_deleteMany (folderId : Z) : Db () := λ s,
  Some (Returned (),
        log (WDeleteShareLinks folderId)
          (set_shareLinks
             (filter (λ l, link_folderId l ≠ folderId) (shareLinks s)) s)).

End Prisma.

(** ** The query module *)

(** [user !== null] and the like *)
Definition not_null {A} (o : option A) : bool :=
  match o with Some _ => true | None => false end.

(** [v || null] on a folder id or null: 0 is the falsy number. *)
Definition or_null (v : option Z) : option Z :=
  match v with
  | Some 0 => None
  | _ => v
  end.

(** The [include] argument of [findFolder]: [parent: true], or
    [parent: { include: { parent: ... } }]. *)
Inductive ParentInclude :=
  | ParentTrue
  | ParentNested (inner : ParentInclude).

(** The [parent] field of a returned folder: absent when the relation was
    not included, [null], or the parent row with its own [parent] field. *)
Inductive ParentField :=
  | NotLoaded
  | ParentNull
  | ParentRow (row : Folder) (parent : ParentField).

Record FolderWithRelations := mkFolderWithRelations {
  fr_folder : Folder;
  fr_subfolders : list Folder;
  fr_files : list File;
  fr_parent : ParentField
}.

Fixpoint load_parent (inc : ParentInclude) (s : Store) (f : Folder) : ParentField :=
  match folder_parentId f ≫= Prisma.folder_findUnique s with
  | None => ParentNull
  | Some p =>
      ParentRow p
        match inc with
        | ParentTrue => NotLoaded
        | ParentNested inner => load_parent inner s p
        end
  end.

(** How many parent levels an [include] asks for. *)
Fixpoint include_depth (inc : ParentInclude) : nat :=
  match inc with
  | ParentTrue => 1
  | ParentNested inner => S (include_depth inner)
  end.

(** The literal of [findFolder]:
    parent: { include: { parent: { include: { parent: { include: { parent: true } } } } } } *)
Definition findFolder_include : ParentInclude :=
  ParentNested (ParentNested (ParentNested ParentTrue)).

Section Queries.

Variable sch : Schema.

Definition createUser (firstName lastName username password : string) : Db User :=
  try_catch
    (user ← Prisma.user_create firstName lastName username password;
     mret user)
    log_and_rethrow.

Definition checkUsernameExists (s : Store) (username : string) : bool :=
  not_null (Prisma.user_findUnique_username s username).

Definition createHomeFolder (userId : Z) : Db () :=
  try_catch
    (_ ← Prisma.folder_create sch "Home" userId None;
     mret ())
    log_and_rethrow.

Definition findFolder (s : Store) (folderId : Z) : option FolderWithRelations :=
  f ← Prisma.folder_findUnique s folderId;
  Some (mkFolderWithRelations f
          (Prisma.folder_subfolders s f)
          (Prisma.folder_files s f)
          (load_parent findFolder_include s f)).

Definition createFile (name path : string) (folderId size : Z) : Db () :=
  try_catch
    (_ ← Prisma.file_create sch name path folderId size;
     mret ())
    log_and_rethrow.

Definition createFolder (name : string) (userId : Z) (parentId : option Z) : Db () :=
  try_catch
    (_ ← Prisma.folder_create sch name userId parentId;
     mret ())
    log_and_rethrow.

Definition checkFilenameExist (s : Store) (name : string) (folderId : Z) : bool :=
  not_null (Prisma.file_findFirst_name_folderId s name folderId).

Definition checkFoldernameExist (s : Store) (name : string) (parentId : option Z)
    : bool :=
  not_null (Prisma.folder_findFirst_name_parentId s name parentId).

(** [homeFolder.id] on [null] is a TypeError. *)
Definition findHomeFolderId (s : Store) (userId : Z) : Outcome Z :=
  match Prisma.folder_findFirst_root s userId with
  | Some homeFolder => Returned (folder_id homeFolder)
  | None => Thrown TypeError
  end.

Definition findFolderUserId (s : Store) (folderId : Z) : Outcome Z :=
  match Prisma.folder_findUnique s folderId with
  | Some folder => Returned (folder_userId folder)
  | None => Thrown (JsError "Folder with ID not found")
  end.

(** [findChildren] pushes onto the array [descendants] of the enclosing
    call; the array is threaded through.  The recursion is on [fuel], the
    number of nested calls the definition may make: [findChildren (S n)]
    may call [findChildren n]. *)
Fixpoint findChildren (fuel : nat) (s : Store) (parentId : Z)
    (descendants : list Z) : option (list Z) :=
  match fuel with
  | O => None
  | S fuel' =>
      let subfolders := Prisma.folder_findMany_parentId s parentId in
      foldl
        (λ acc subfolder,
           descendants ← acc;
           findChildren fuel' s (folder_id subfolder)
             (descendants ++ [folder_id subfolder]))
        (Some descendants) subfolders
  end.

Definition findDescendantFolders (fuel : nat) (s : Store) (folderId : Z)
    : option (list Z) :=
  findChildren fuel s folderId [].

Definition findParentFolders (fuel : nat) (s : Store) (userId folderId : Z)
    : option (list Folder) :=
  descendants ← findDescendantFolders fuel s folderId;
  let descendants := descendants ++ [folderId] in
  Some (Prisma.folder_findMany_userId_notIn s userId descendants).

Definition updateFolder (folderId : Z) (newName : string) (newParentId : option Z)
    : Db Folder :=
  try_catch
    (updatedFolder ← Prisma.folder_update sch folderId newName (or_null newParentId);
     mret updatedFolder)
    log_and_rethrow.

(** The recursion is on [fuel], as for [findChildren]. *)
Fixpoint deleteFolder (fuel : nat) (folderId : Z) : Db () :=
  match fuel with
  | O => λ _, None
  | S fuel' =>
      try_catch
        (_ ← Prisma.file_deleteMany folderId;
         subfolders ← query (λ s, Prisma.folder_findMany_parentId s folderId);
         _ ← for_each (λ subfolder, deleteFolder fuel' (folder_id subfolder))
               subfolders;
         _ ← Prisma.shareLink_deleteMany folderId;
         _ ← Prisma.folder_delete sch folderId;
         mret ())
        log_and_rethrow
  end.

Definition findFile (s : Store) (fileId : Z) : option File :=
  Prisma.file_findUnique s fileId.

Definition createShareLink (folderId expiresAt : Z) : Db ShareLink :=
  try_catch
    (shareLink ← Prisma.shareLink_create sch folderId expiresAt;
     mret shareLink)
    log_and_rethrow.

Definition findShareLink (s : Store) (shareLinkId : Z) : option ShareLink :=
  Prisma.shareLink_findUnique s shareLinkId.

End Queries.

(** ** The folder tree *)

(** [c] is the id of a row whose parentId is [p]. *)
Definition child_of (s : Store) (p c : Z) : Prop :=
  ∃ f, f ∈ folders s ∧ folder_id f = c ∧ folder_parentId f = Some p.

(** The folders transitively reachable from a folder by the child
    relation. *)
Definition descendant (s : Store) : relation Z := tc (child_of s).

Definition in_subtree (s : Store) (F x : Z) : Prop := x = F ∨ descendant s F x.

(** Acyclicity: no folder is its own parent or descendant. *)
Definition acyclic (s : Store) : Prop := ∀ x, ¬ descendant s x x.

(** The id is the primary key of the folder table. *)
Definition unique_ids (s : Store) : Prop := NoDup (folder_id <$> folders s).

(** Every chain of children below [p] has fewer than [n] links. *)
Inductive bounded (s : Store) : nat → Z → Prop :=
  | bounded_intro n p :
      (∀ c, child_of s p c → bounded s n c) → bounded s (S n) p.

(** A sufficient test for acyclicity: every parentId is smaller than the
    id of its row, as in a store where folders were created below existing
    folders and never moved. *)
Definition parents_first (s : Store) : bool :=
  forallb
    (λ f, match folder_parentId f with
          | Some p => bool_decide (p < folder_id f)
          | None => true
          end)
    (folders s).

(** [a] occurs before [b] in a journal. *)
Definition before (a b : Write) (tr : list Write) : Prop :=
  ∃ l1 l2 l3, tr = l1 ++ a :: l2 ++ b :: l3.

(** The home folders of a user: its rows without a parent. *)
Definition roots (s : Store) (userId : Z) : list Folder :=
  filter (λ f, folder_userId f = userId ∧ folder_parentId f = None) (folders s).

(** The first [n] ancestors of a row, nearest first, read off the parentId
    column. *)
Fixpoint ancestors (n : nat) (s : Store) (f : Folder) : list Folder :=
  match n with
  | O => []
  | S n' =>
      match folder_parentId f ≫= Prisma.folder_findUnique s with
      | None => []
      | Some p => p :: ancestors n' s p
      end
  end.

(** The rows a [parent] field carries, nearest first. *)
Fixpoint loaded_ancestors (pf : ParentField) : list Folder :=
  match pf with
  | NotLoaded | ParentNull => []
  | ParentRow row up => row :: loaded_ancestors up
  end.

(** Whether the chain of a [parent] field stops at a relation that was not
    included, rather than at [null]. *)
Fixpoint cut_off (pf : ParentField) : bool :=
  match pf with
  | NotLoaded => true
  | ParentNull => false
  | ParentRow _ up => cut_off up
  end.

(** ** Deleting a subtree *)

(** [s'] is [s] without the folders of [X], the files in them and the share
    links on them. *)
Definition without (X : list Z) (s s' : Store) : Prop :=
  folders s' = filter (λ f, folder_id f ∉ X) (folders s) ∧
  files s' = filter (λ x, file_folderId x ∉ X) (files s) ∧
  shareLinks s' = filter (λ l, link_folderId l ∉ X) (shareLinks s) ∧
  users s' = users s.

(** The store after [file.deleteMany] on folder [F]. *)
Definition after_files (F : Z) (s : Store) : Store :=
  Prisma.log (WDeleteFiles F)
    (Prisma.set_files (filter (λ x, file_folderId x ≠ F) (files s)) s).

(** The store after [shareLink.deleteMany] on folder [F]. *)
Definition after_links (F : Z) (s : Store) : Store :=
  Prisma.log (WDeleteShareLinks F)
    (Prisma.set_shareLinks (filter (λ l, link_folderId l ≠ F) (shareLinks s)) s).

(** The order of the statements of a deletion of the folders [X] of store
    [s]: for each folder, files, then share links, then the row; and for a
    folder and each of its subfolders, the files of the folder before the
    files of the subfolder, and the row of the subfolder before the share
    links of the folder. *)
Definition trace_ok (s : Store) (X : list Z) (tr : list Write) : Prop :=
  (∀ x, x ∈ X →
     before (WDeleteFiles x) (WDeleteShareLinks x) tr ∧
     before (WDeleteShareLinks x) (WDeleteFolder x) tr) ∧
  (∀ x y, x ∈ X → child_of s x y →
     before (WDeleteFiles x) (WDeleteFiles y) tr ∧
     before (WDeleteFolder y) (WDeleteShareLinks x) tr).

(** [deleteFolder] on [F] returned, leaving [s'] and having written [tr]. *)
Definition deleted_subtree (sch : Schema) (fuel : nat) (F : Z) (s s' : Store)
    (X : list Z) (tr : list Write) : Prop :=
  deleteFolder sch fuel F s = Some (Returned (), s') ∧
  without X s s' ∧
  (∀ x, x ∈ X ↔ in_subtree s F x) ∧
  journal s' = journal s ++ tr ∧
  (∃ mid, tr = WDeleteFiles F :: mid ++ [WDeleteShareLinks F; WDeleteFolder F]) ∧
  trace_ok s X tr.

(** ** Share links, as the specification words them *)

Inductive Resolution :=
  | Resolved (l : ShareLink)
  | Expired
  | NotFound.

(** The three-way outcome the specification gives for resolving a share
    link at time [now]; it follows the specification, not [findShareLink]. *)
Definition resolveShareLink_spec (now : Z) (s : Store) (shareLinkId : Z)
    : Resolution :=
  match Prisma.shareLink_findUnique s shareLinkId with
  | None => NotFound
  | Some l => if bool_decide (now < link_expiresAt l) then Resolved l else Expired
  end.

(** What a caller of [findShareLink] can tell apart: a row or [null]. *)
Definition resolution_of (o : option ShareLink) : Resolution :=
  match o with
  | Some l => Resolved l
  | None => NotFound
  end.

(** ** Sequences of calls *)

Inductive Op :=
  | OpCreateUser (firstName lastName username password : string)
  | OpCreateHomeFolder (userId : Z)
  | OpCreateFolder (name : string) (userId : Z) (parentId : option Z)
  | OpCreateFile (name path : string) (folderId size : Z)
  | OpUpdateFolder (folderId : Z) (newName : string) (newParentId : option Z)
  | OpDeleteFolder (folderId : Z)
  | OpCreateShareLink (folderId expiresAt : Z).

Definition state_after {A} (r : option (Outcome A * Store)) : option Store :=
  snd <$> r.

(** One call; a call that throws leaves the store as it was when it threw.
    [deleteFolder] is given more nesting depth than there are folders. *)
Definition run_op (sch : Schema) (op : Op) (s : Store) : option Store :=
  match op with
  | OpCreateUser fn ln un pw => state_after (createUser fn ln un pw s)
  | OpCreateHomeFolder u => state_after (createHomeFolder sch u s)
  | OpCreateFolder n u p => state_after (createFolder sch n u p s)
  | OpCreateFile n pa f sz => state_after (createFile sch n pa f sz s)
  | OpUpdateFolder f n p => state_after (updateFolder sch f n p s)
  | OpDeleteFolder f => state_after (deleteFolder sch (S (length (folders s))) f s)
  | OpCreateShareLink f e => state_after (createShareLink sch f e s)
  end.

Definition run_ops (sch : Schema) (ops : list Op) (s : Store) : option Store :=
  foldl (λ acc op, acc ≫= run_op sch op) (Some s) ops.

(** ** Example stores *)

(** The schema that declares everything it can. *)
Definition strict : Schema := mkSchema true true true true.

(** The schema that declares the columns only. *)
Definition lax : Schema := mkSchema false false false false.

Definition alice : User := mkUser 1 "Alice" "A" "alice" "x".
Definition bob : User := mkUser 2 "Bob" "B" "bob" "y".

(** Home (1) > Docs (2) > Reports (3), all of user 1; Home (4) of user 2;
    one file in Docs, one in Reports; a share link on Reports that expired
    at time 5 and one on Docs that expires at time 100. *)
Definition demo : Store :=
  mkStore [alice; bob]
    [mkFolder 1 "Home" 1 None; mkFolder 2 "Docs" 1 (Some 1);
     mkFolder 3 "Reports" 1 (Some 2); mkFolder 4 "Home" 2 None]
    [mkFile 1 "a.txt" "/up/a" 2 10; mkFile 2 "b.txt" "/up/b" 3 20]
    [mkShareLink 1 3 5; mkShareLink 2 2 100]
    3 5 3 3 [].

(** A single line of [D] nested folders below a home folder: ids
    1, 2, ..., D + 1, each the parent of the next. *)
Fixpoint chain_folders (D : nat) : list Folder :=
  match D with
  | O => [mkFolder 1 "Home" 1 None]
  | S d => chain_folders d ++ [mkFolder (Z.of_nat D + 1) "sub" 1 (Some (Z.of_nat D))]
  end.

Definition chain (D : nat) : Store :=
  mkStore [alice] (chain_folders D) [] [] 2 (Z.of_nat D + 2) 1 1 [].

(** Home (1) with Docs (2) and Pics (3) in it; Docs holds folders 4 and 6,
    Pics holds folder 5. *)
Definition bushy : Store :=
  mkStore [alice]
    [mkFolder 1 "Home" 1 None; mkFolder 2 "Docs" 1 (Some 1);
     mkFolder 3 "Pics" 1 (Some 1); mkFolder 4 "2023" 1 (Some 2);
     mkFolder 5 "Trips" 1 (Some 3); mkFolder 6 "2024" 1 (Some 2)]
    [] [] 2 7 1 1 [].

(** ** Looking a user up *)

(** The values [findUser] is called with: an id or a username. *)
Inductive JsValue :=
  | JsNumber (z : Z)
  | JsString (s : string).

(** What [findUser] gives back: the row or [null], or what it throws. *)
Inductive FindUser :=
  | UserResult (user : option User)
  | InvalidMethod          (* throw new Error('Invalid method. ...') *)
  | InvalidArgument.       (* the client refuses a value of the wrong type *)

Definition findUser (s : Store) (method : string) (value : JsValue) : FindUser :=
  if decide (method = "username") then
    match value with
    | JsString username => UserResult (Prisma.user_findUnique_username s username)
    | JsNumber _ => InvalidArgument
    end
  else if decide (method = "id") then
    match value with
    | JsNumber id => UserResult (Prisma.user_findUnique_id s id)
    | JsString _ => InvalidArgument
    end
  else InvalidMethod.

(** ** Keys and counters *)

(** The keys of a table are pairwise distinct and below the counter that
    issues the next one. *)
Definition keys_below {A} (key : A → Z) (rows : list A) (next : Z) : Prop :=
  NoDup (key <$> rows) ∧ ∀ r, r ∈ rows → key r < next.

Definition wf_store (s : Store) : Prop :=
  keys_below user_id (users s) (nextUserId s) ∧
  keys_below folder_id (folders s) (nextFolderId s) ∧
  keys_below file_id (files s) (nextFileId s) ∧
  keys_below link_id (shareLinks s) (nextShareLinkId s) ∧
  NoDup (user_username <$> users s).

(** Nothing was added to or changed in [s] to get [s']: rows were removed
    at most. *)
Definition shrinks (s s' : Store) : Prop :=
  users s' = users s ∧
  folders s' `sublist_of` folders s ∧
  files s' `sublist_of` files s ∧
  shareLinks s' `sublist_of` shareLinks s ∧
  nextUserId s' = nextUserId s ∧ nextFolderId s' = nextFolderId s ∧
  nextFileId s' = nextFileId s ∧ nextShareLinkId s' = nextShareLinkId s.

(** Every row missing from [s'] belongs to the subtree of [F] in [s]. *)
Definition removed_within (F : Z) (s s' : Store) : Prop :=
  (∀ f, f ∈ folders s → f ∉ folders s' → in_subtree s F (folder_id f)) ∧
  (∀ x, x ∈ files s → x ∉ files s' → in_subtree s F (file_folderId x)) ∧
  (∀ l, l ∈ shareLinks s → l ∉ shareLinks s' → in_subtree s F (link_folderId l)).

(** ** Calls that keep the tree a tree *)

(** Every parentId is an id that was issued already. *)
Definition parents_issued (s : Store) : Prop :=
  ∀ f q, f ∈ folders s → folder_parentId f = Some q → q < nextFolderId s.

(** A move is safe when its new parent, if any, is neither the folder nor
    below it; the other calls are always safe. *)
Definition safe_op (s : Store) (op : Op) : Prop :=
  match op with
  | OpUpdateFolder F _ p => ∀ P, or_null p = Some P → ¬ in_subtree s F P
  | _ => True
  end.

(** Each call of the sequence is safe in the store it runs in. *)
Fixpoint safe_run (sch : Schema) (ops : list Op) (s : Store) : Prop :=
  match ops with
  | [] => True
  | op :: ops' =>
      safe_op s op ∧ ∀ s1, run_op sch op s = Some s1 → safe_run sch ops' s1
  end.

(** [x] occurs before [y] in a list of ids. *)
Definition precedes (x y : Z) (l : list Z) : Prop :=
  ∃ l1 l2 l3, l = l1 ++ x :: l2 ++ y :: l3.

(** ** formatSize

    [bytes] is the value of the number passed, an integer.  The quotients by
    1024, 1048576 and 1073741824 are exact in floating point, these being
    powers of two. *)

(** The hundredths nearest to [num / den], the larger on a tie. *)
Definition hundredths (num den : Z) : Z := (200 * num + den) `div` (2 * den).

Definition two_digits (d : Z) : string :=
  pretty (d `div` 10) +:+ pretty (d `mod` 10).

(** A number of hundredths as a decimal with two digits after the point. *)
Definition show_hundredths (n : Z) : string :=
  pretty (n `div` 100) +:+ "." +:+ two_digits (n `mod` 100).

(** [(num / den).toFixed(2)] for a quotient that is not negative.  Below
    10^21 the result is the decimal with two digits after the point that is
    nearest to the exact quotient, the larger on a tie.  From 10^21 on
    [toFixed] gives the exponent notation of the number; its digits are not
    modelled, and the result is [None]. *)
Definition toFixed2 (num den : Z) : option string :=
  if bool_decide (num < 10 ^ 21 * den)
  then Some (show_hundredths (hundredths num den))
  else None.

(** The number in a template literal: for a safe integer, its decimal
    digits.  Beyond 2^53 the digits printed are the shortest that read back
    as the same number; they are not modelled, and the result is [None]. *)
Definition number_toString (n : Z) : option string :=
  if bool_decide (Z.abs n < 2 ^ 53) then Some (pretty n) else None.

Definition formatSize (bytes : Z) : option string :=
  if bool_decide (bytes < 1024)
  then (λ n, n +:+ " bytes") <$> number_toString bytes
  else if bool_decide (bytes < 1048576)
  then (λ n, n +:+ " KB") <$> toFixed2 bytes 1024
  else if bool_decide (bytes < 1073741824)
  then (λ n, n +:+ " MB") <$> toFixed2 bytes 1048576
  else (λ n, n +:+ " GB") <$> toFixed2 bytes 1073741824.

(** * Properties *)

(** ** Lookups by key *)

Section find_first.
Context {A : Type} (P : A → Prop) `{!∀ x, Decision (P x)}.

Lemma find_first_Some (l : list A) (x : A) :
  snd <$> list_find P l = Some x → x ∈ l ∧ P x.
Proof.
  intros ([i y] & Hf & ->)%fmap_Some.
  apply list_find_Some in Hf as (Hl & HP & _).
  split; [by eapply list_elem_of_lookup_2|done].
Qed.

Lemma find_first_None (l : list A) :
  snd <$> list_find P l = None ↔ ∀ x, x ∈ l → ¬ P x.
Proof.
  rewrite fmap_None, list_find_None, Forall_forall. done.
Qed.

Lemma find_first_is_Some (l : list A) (x : A) :
  x ∈ l → P x → is_Some (snd <$> list_find P l).
Proof.
  intros Hx HP. destruct (list_find_elem_of P l x Hx HP) as [[i y] ->].
  by eexists.
Qed.
End find_first.

(** ** Share links are looked up by id only *)

Lemma findShareLink_Some s L l :
  findShareLink s L = Some l → l ∈ shareLinks s ∧ link_id l = L.
Proof. apply (find_first_Some (λ l, link_id l = L)). Qed.

Lemma findShareLink_None s L :
  findShareLink s L = None ↔ ∀ l, l ∈ shareLinks s → link_id l ≠ L.
Proof. apply (find_first_None (λ l, link_id l = L)). Qed.

(** C4, as stated, fails: share link 1 of the demo store expired at time 5;
    at time 10 the specification's outcome is [Expired], but
    [findShareLink] returns the row, which a caller reads as a live link. *)
Lemma findShareLink_returns_expired_link :
  findShareLink demo 1 = Some (mkShareLink 1 3 5) ∧
  link_expiresAt (mkShareLink 1 3 5) ≤ 10 ∧
  resolveShareLink_spec 10 demo 1 = Expired ∧
  resolution_of (findShareLink demo 1) ≠ resolveShareLink_spec 10 demo 1.
Proof. split_and!; [reflexivity|simpl; lia|reflexivity|discriminate]. Qed.

(** C4, amended: [findShareLink] returns the row with the given id whenever
    there is one, whatever its expiry (also when the specification's outcome
    at time [now] is [Expired]), and null exactly when no row has that id;
    it never compares [expiresAt] with a clock, so a row and null are the
    only two outcomes. *)
Theorem findShareLink_ignores_expiry (now : Z) (s : Store) (L : Z) :
  (∀ l, findShareLink s L = Some l → l ∈ shareLinks s ∧ link_id l = L) ∧
  (findShareLink s L = None ↔ ∀ l, l ∈ shareLinks s → link_id l ≠ L) ∧
  match resolveShareLink_spec now s L with
  | Resolved l => findShareLink s L = Some l
  | Expired =>
      ∃ l, findShareLink s L = Some l ∧ link_id l = L ∧ link_expiresAt l ≤ now
  | NotFound => findShareLink s L = None
  end.
Proof.
  split_and!.
  - apply findShareLink_Some.
  - apply findShareLink_None.
  - unfold resolveShareLink_spec, findShareLink.
    destruct (Prisma.shareLink_findUnique s L) as [l|] eqn:E; [|done].
    case_bool_decide; [done|].
    exists l. split_and!; [done| |lia].
    by apply (findShareLink_Some s L l).
Qed.

(** ** The parent chain of [findFolder] *)

Lemma ancestors_take n m s f :
  (n ≤ m)%nat → take n (ancestors m s f) = ancestors n s f.
Proof.
  revert m f. induction n as [|n IH]; intros m f Hle; [by rewrite take_0|].
  destruct m as [|m]; [lia|]. simpl.
  destruct (folder_parentId f ≫= Prisma.folder_findUnique s) as [p|]; [|done].
  simpl. f_equal. apply IH. lia.
Qed.

Lemma load_parent_ancestors inc s f :
  loaded_ancestors (load_parent inc s f) = ancestors (include_depth inc) s f.
Proof.
  revert f. induction inc as [|inc IH]; intros f; simpl;
    destruct (folder_parentId f ≫= Prisma.folder_findUnique s) as [p|];
    simpl; try done.
  by rewrite IH.
Qed.

Lemma load_parent_cut_off inc s f :
  cut_off (load_parent inc s f) = true ↔
  length (ancestors (include_depth inc) s f) = include_depth inc.
Proof.
  revert f. induction inc as [|inc IH]; intros f; simpl;
    destruct (folder_parentId f ≫= Prisma.folder_findUnique s) as [p|];
    simpl; try done.
  rewrite IH. split; lia.
Qed.

(** C10: for an existing folder, [findFolder] returns the row with its
    parent chain cut at four levels: the loaded chain is the first four
    entries of the ancestor chain (all of it when it is shorter), and when
    the folder has five or more ancestors the loaded chain has exactly four
    rows, ends at a relation that was not included, and holds none of the
    ancestors from the fifth on. *)
Theorem findFolder_four_parents (s : Store) (F : Z) (f : Folder) :
  Prisma.folder_findUnique s F = Some f →
  ∃ v, findFolder s F = Some v ∧ fr_folder v = f ∧
    (∀ n, (4 ≤ n)%nat →
       loaded_ancestors (fr_parent v) = take 4 (ancestors n s f)) ∧
    (∀ n, (4 < n)%nat → length (ancestors n s f) = n →
       length (loaded_ancestors (fr_parent v)) = 4%nat ∧
       cut_off (fr_parent v) = true ∧
       ∀ k a, (4 ≤ k)%nat → ancestors n s f !! k = Some a →
         loaded_ancestors (fr_parent v) !! k = None).
Proof.
  intros Hf. unfold findFolder. rewrite Hf.
  eexists. split; [reflexivity|]. cbn [fr_parent fr_folder]. split; [done|].
  assert (Hl : loaded_ancestors (load_parent findFolder_include s f)
               = ancestors 4 s f) by apply load_parent_ancestors.
  split.
  - intros n Hn. by rewrite Hl, ancestors_take.
  - intros n Hn Hlen.
    assert (Hfour : length (ancestors 4 s f) = 4%nat).
    { rewrite <- (ancestors_take 4 n) by lia. rewrite length_take. lia. }
    split_and!.
    + by rewrite Hl.
    + by apply load_parent_cut_off.
    + intros k a Hk _. apply lookup_ge_None. rewrite Hl, Hfour. done.
Qed.

(** Folder 7 of the chain of depth 6 has six ancestors; [findFolder] loads
    folders 6, 5, 4 and 3 and leaves out 2 and 1. *)
Lemma findFolder_four_parents_witness :
  ∃ v, findFolder (chain 6) 7 = Some v ∧
    folder_id <$> loaded_ancestors (fr_parent v) = [6; 5; 4; 3] ∧
    folder_id <$> ancestors 6 (chain 6) (fr_folder v) = [6; 5; 4; 3; 2; 1].
Proof.
  destruct (findFolder_four_parents (chain 6) 7 (mkFolder 7 "sub" 1 (Some 6)))
    as (v & Hv & Hrow & Htake & _); [reflexivity|].
  exists v. split; [exact Hv|]. rewrite (Htake 6%nat), Hrow by lia.
  split; reflexivity.
Defined.

(** ** The single-statement mutations *)

Ltac run_db :=
  unfold createUser, createHomeFolder, createFolder, createFile, updateFolder,
    createShareLink, try_catch, log_and_rethrow, throw, query,
    mbind, Db_bind, mret, Db_ret in *.

Lemma folder_exists_true s id :
  Prisma.folder_exists s id = true ↔ ∃ f, f ∈ folders s ∧ folder_id f = id.
Proof.
  unfold Prisma.folder_exists. rewrite bool_decide_eq_true, list_elem_of_fmap.
  naive_solver.
Qed.

Lemma folder_findUnique_Some s id f :
  Prisma.folder_findUnique s id = Some f → f ∈ folders s ∧ folder_id f = id.
Proof. apply (find_first_Some (λ f, folder_id f = id)). Qed.

Lemma folder_findUnique_None s id :
  Prisma.folder_findUnique s id = None ↔ ∀ f, f ∈ folders s → folder_id f ≠ id.
Proof. apply (find_first_None (λ f, folder_id f = id)). Qed.

Lemma folder_findUnique_is_Some s id :
  is_Some (Prisma.folder_findUnique s id) ↔ ∃ f, f ∈ folders s ∧ folder_id f = id.
Proof.
  split.
  - intros [f Hf]. exists f. by apply folder_findUnique_Some.
  - intros (f & Hf & Hid). by apply (find_first_is_Some (λ f, folder_id f = id) _ f).
Qed.

Lemma sibling_clash_true rows row :
  Prisma.sibling_clash rows row = true ↔
  ∃ q f, folder_parentId row = Some q ∧ f ∈ rows ∧
         folder_name f = folder_name row ∧ folder_parentId f = Some q.
Proof.
  unfold Prisma.sibling_clash. destruct (folder_parentId row) as [q|].
  - rewrite bool_decide_eq_true, Exists_exists. naive_solver.
  - naive_solver.
Qed.

Lemma folder_violation_None sch s others row :
  Prisma.folder_violation sch s others row = None ↔
  (foreign_keys sch = true →
     ∀ q, folder_parentId row = Some q → Prisma.folder_exists s q = true) ∧
  (unique_sibling_names sch = true →
     ¬ ∃ q f, folder_parentId row = Some q ∧ f ∈ others ∧
              folder_name f = folder_name row ∧ folder_parentId f = Some q).
Proof.
  unfold Prisma.folder_violation. rewrite <- sibling_clash_true.
  destruct (foreign_keys sch), (unique_sibling_names sch),
    (Prisma.sibling_clash others row), (folder_parentId row) as [q|]; simpl;
    try destruct (Prisma.folder_exists s q) eqn:E; simpl;
    split; try done; try (intros [H1 H2]); try (split; intros; simplify_eq; try done);
    try (by exfalso; apply H2); try (specialize (H1 eq_refl _ eq_refl); congruence).
Qed.

Lemma user_exists_true s id :
  Prisma.user_exists s id = true ↔ ∃ u, u ∈ users s ∧ user_id u = id.
Proof.
  unfold Prisma.user_exists. rewrite bool_decide_eq_true, list_elem_of_fmap.
  naive_solver.
Qed.

Lemma checkFoldernameExist_true s name p :
  checkFoldernameExist s name p = true ↔
  ∃ f, f ∈ folders s ∧ folder_name f = name ∧ folder_parentId f = p.
Proof.
  unfold checkFoldernameExist, Prisma.folder_findFirst_name_parentId.
  set (P := λ f, folder_name f = name ∧ folder_parentId f = p).
  destruct (snd <$> list_find P (folders s)) as [f|] eqn:E; simpl.
  - apply (find_first_Some P) in E as [? [? ?]]. naive_solver.
  - split; [done|]. intros (f & Hf & Hn & Hp).
    rewrite (find_first_None P) in E. by destruct (E f Hf).
Qed.

(** What [createFolder] does, case by case. *)
Lemma createFolder_cases sch name U p s :
  let row := mkFolder (nextFolderId s) name U p in
  (createFolder sch name U p s =
     Some (Returned (),
           Prisma.log (WCreateFolder (nextFolderId s))
             (mkStore (users s) (folders s ++ [row]) (files s) (shareLinks s)
                (nextUserId s) (nextFolderId s + 1) (nextFileId s)
                (nextShareLinkId s) (journal s))) ∧
   (foreign_keys sch = true → Prisma.user_exists s U = true) ∧
   Prisma.folder_violation sch s (folders s) row = None) ∨
  ((∃ e, createFolder sch name U p s = Some (Thrown e, s)) ∧
   ¬ ((foreign_keys sch = true → Prisma.user_exists s U = true) ∧
      Prisma.folder_violation sch s (folders s) row = None)).
Proof.
  intros row. run_db. unfold Prisma.folder_create. fold row.
  destruct (foreign_keys sch) eqn:Efk, (Prisma.user_exists s U) eqn:Eu; simpl;
    try (right; split; [by eexists|]; intros [H _]; by specialize (H eq_refl));
    (destruct (Prisma.folder_violation sch s (folders s) row) as [e|] eqn:Ev;
      [right; split; [by eexists|]; by intros [_ ?]
      |left; split_and!; done]).
Qed.

(** C6, as stated, fails.  Under the schema that declares every constraint,
    user 2 creates a folder under folder 1, which belongs to user 1: the
    call returns and inserts the row, there is no ownership test.  And where
    the schema does not declare the sibling key, a second "Docs" under
    folder 1 is inserted although [checkFoldernameExist] reports the
    name as taken. *)
Lemma createFolder_checks_neither_owner_nor_name :
  findFolderUserId demo 1 = Returned 1 ∧
  (∃ s', createFolder strict "Stuff" 2 (Some 1) demo = Some (Returned (), s') ∧
         folders s' = folders demo ++ [mkFolder 5 "Stuff" 2 (Some 1)]) ∧
  checkFoldernameExist demo "Docs" (Some 1) = true ∧
  (∃ s', createFolder lax "Docs" 1 (Some 1) demo = Some (Returned (), s') ∧
         folders s' = folders demo ++ [mkFolder 5 "Docs" 1 (Some 1)]).
Proof.
  split_and!; [reflexivity| |reflexivity|];
    (eexists; split; [vm_compute; reflexivity|reflexivity]).
Qed.

(** C6, amended: [createFolder] makes no test of its own.  It returns
    exactly when the store accepts the row: the user exists and the parent,
    if any, exists (whoever owns it), where references are enforced; no
    folder of that name lies under the same non-null parent, where the
    sibling key is declared (so the same name under different parents is
    always accepted).  On return exactly the new row was appended; when it
    throws, the store is unchanged.  Whether the name is taken is answered
    by [checkFoldernameExist], true exactly when some folder, of any user,
    has that name and that parentId. *)
Theorem createFolder_inserts_what_the_store_accepts
    (sch : Schema) (name : string) (U : Z) (p : option Z) (s : Store) :
  let row := mkFolder (nextFolderId s) name U p in
  ((∃ s', createFolder sch name U p s = Some (Returned (), s')) ↔
     (foreign_keys sch = true →
        Prisma.user_exists s U = true ∧
        ∀ q, p = Some q → Prisma.folder_exists s q = true) ∧
     (unique_sibling_names sch = true →
        ∀ q, p = Some q →
          ¬ ∃ f, f ∈ folders s ∧ folder_name f = name ∧
                 folder_parentId f = Some q)) ∧
  (∀ s', createFolder sch name U p s = Some (Returned (), s') →
     folders s' = folders s ++ [row] ∧ users s' = users s ∧
     files s' = files s ∧ shareLinks s' = shareLinks s) ∧
  (∀ e s', createFolder sch name U p s = Some (Thrown e, s') → s' = s) ∧
  createFolder sch name U p s ≠ None ∧
  (checkFoldernameExist s name p = true ↔
     ∃ f, f ∈ folders s ∧ folder_name f = name ∧ folder_parentId f = p).
Proof.
  intros row.
  assert (Hacc : ((foreign_keys sch = true → Prisma.user_exists s U = true) ∧
                  Prisma.folder_violation sch s (folders s) row = None) ↔
     (foreign_keys sch = true →
        Prisma.user_exists s U = true ∧
        ∀ q, p = Some q → Prisma.folder_exists s q = true) ∧
     (unique_sibling_names sch = true →
        ∀ q, p = Some q →
          ¬ ∃ f, f ∈ folders s ∧ folder_name f = name ∧
                 folder_parentId f = Some q)).
  { rewrite folder_violation_None. simpl. split.
    - intros (Hu & Hp & Hn). split; [by auto|].
      intros Huniq q -> (f & ? & ? & ?). apply (Hn Huniq). by exists q, f.
    - intros (Hfk & Hn). split_and!; [apply Hfk|apply Hfk|].
      intros Huniq (q & f & -> & ? & ? & ?). apply (Hn Huniq q eq_refl).
      by exists f. }
  pose proof (createFolder_cases sch name U p s) as Hc.
  cbv zeta in Hc. fold row in Hc. rewrite !Hacc in Hc.
  destruct Hc as [(Hrun & Hok)|((e & Hrun) & Hno)]; rewrite Hrun; split_and!.
  - split; [done|]. by eexists.
  - by intros ? [= <-].
  - done.
  - done.
  - apply checkFoldernameExist_true.
  - split; [by intros (? & [=])|done].
  - done.
  - by intros ? ? [= _ <-].
  - done.
  - apply checkFoldernameExist_true.
Qed.

Lemma updateFolder_cases sch F n p s :
  match Prisma.folder_findUnique s F with
  | None => updateFolder sch F n p s = Some (Thrown RecordNotFound, s)
  | Some old =>
      let row := mkFolder F n (folder_userId old) (or_null p) in
      let others := filter (λ f, folder_id f ≠ F) (folders s) in
      match Prisma.folder_violation sch s others row with
      | Some e => updateFolder sch F n p s = Some (Thrown e, s)
      | None =>
          updateFolder sch F n p s =
            Some (Returned row,
                  Prisma.log (WUpdateFolder F)
                    (Prisma.set_folders
                       ((λ f, if decide (folder_id f = F) then row else f)
                          <$> folders s) s))
      end
  end.
Proof.
  run_db. unfold Prisma.folder_update.
  destruct (Prisma.folder_findUnique s F) as [old|]; [|done]. simpl.
  by destruct (Prisma.folder_violation _ _ _ _).
Qed.

Lemma findUnique_after_update (l : list Folder) F row :
  folder_id row = F →
  is_Some (snd <$> list_find (λ f, folder_id f = F) l) →
  snd <$> list_find (λ f, folder_id f = F)
            ((λ f, if decide (folder_id f = F) then row else f) <$> l)
  = Some row.
Proof.
  intros Hid. induction l as [|x l IH]; csimpl; [by intros [? ?]|].
  destruct (decide (folder_id x = F)) as [Hx|Hx].
  - intros _. by rewrite decide_True.
  - rewrite decide_False by done. rewrite <- !option_fmap_compose.
    intros Hs. rewrite <- IH; [done|].
    destruct (list_find _ l) as [[i y]|]; [by eexists|by destruct Hs].
Qed.

Lemma updateFolder_returned sch F n p s f' s' :
  updateFolder sch F n p s = Some (Returned f', s') →
  folder_id f' = F ∧ folder_name f' = n ∧ folder_parentId f' = or_null p ∧
  Prisma.folder_findUnique s' F = Some f'.
Proof.
  pose proof (updateFolder_cases sch F n p s) as Hc.
  destruct (Prisma.folder_findUnique s F) as [old|] eqn:Hold;
    [cbv zeta in Hc;
     destruct (Prisma.folder_violation sch s _ _) as [e|] eqn:Hv|];
    rewrite Hc; clear Hc; try done.
  intros [= <- <-]. split_and!; try done.
  unfold Prisma.folder_findUnique. simpl.
  apply findUnique_after_update; [done|].
  change (is_Some (Prisma.folder_findUnique s F)). by rewrite Hold.
Qed.

Lemma or_null_Some P : P ≠ 0 → or_null (Some P) = Some P.
Proof. by destruct P. Qed.

Lemma findParentFolders_elem fuel s U F targets G :
  findParentFolders fuel s U F = Some targets → G ∈ targets →
  G ∈ folders s ∧ folder_userId G = U ∧ folder_id G ≠ F.
Proof.
  unfold findParentFolders. intros Hr HG.
  destruct (findDescendantFolders fuel s F) as [ds|]; simplify_eq/=.
  unfold Prisma.folder_findMany_userId_notIn in HG.
  apply list_elem_of_filter in HG as [[HU Hnot] Hin].
  split_and!; [done..|]. intros Heq. apply Hnot. rewrite Heq. set_solver.
Qed.

(** C1, as stated, fails.  In the demo store the valid move targets of
    folder 2 (Docs, of user 1) are [Home] alone and its descendants are
    [3]; under the schema that declares every constraint [updateFolder]
    nevertheless returns for the new parent 2 (the folder itself) and for
    the new parent 3 (its child), and the stored parentId is changed. *)
Lemma updateFolder_accepts_self_and_descendant :
  findFolderUserId demo 2 = Returned 1 ∧
  findParentFolders 3 demo 1 2 = Some [mkFolder 1 "Home" 1 None] ∧
  findDescendantFolders 3 demo 2 = Some [3] ∧
  (∃ s', updateFolder strict 2 "Docs" (Some 2) demo
           = Some (Returned (mkFolder 2 "Docs" 1 (Some 2)), s') ∧
         Prisma.folder_findUnique s' 2 = Some (mkFolder 2 "Docs" 1 (Some 2))) ∧
  (∃ s', updateFolder strict 2 "Docs" (Some 3) demo
           = Some (Returned (mkFolder 2 "Docs" 1 (Some 3)), s') ∧
         Prisma.folder_findUnique s' 2 = Some (mkFolder 2 "Docs" 1 (Some 3))).
Proof.
  split_and!; [reflexivity..| |];
    (eexists; split; [vm_compute; reflexivity|reflexivity]).
Qed.

(** C1, amended: for a provided (non-zero) new parent [P],
    [updateFolder] returns exactly when the folder exists and the store
    accepts the row: [P] exists, where references are enforced, and no
    other folder has the new name under [P], where the sibling key is
    declared.  The valid move targets are not consulted: each of them
    exists, so it passes the reference check, but so do the folder itself
    and its descendants.  On return the stored row has the new name and
    parentId [P]; when the call throws, the store is unchanged. *)
Theorem updateFolder_moves_unvalidated
    (sch : Schema) (s : Store) (F : Z) (n : string) (P : Z) :
  P ≠ 0 →
  ((∃ f' s', updateFolder sch F n (Some P) s = Some (Returned f', s')) ↔
     (∃ f, f ∈ folders s ∧ folder_id f = F) ∧
     (foreign_keys sch = true → Prisma.folder_exists s P = true) ∧
     (unique_sibling_names sch = true →
        ¬ ∃ g, g ∈ folders s ∧ folder_id g ≠ F ∧ folder_name g = n ∧
               folder_parentId g = Some P)) ∧
  (∀ f' s', updateFolder sch F n (Some P) s = Some (Returned f', s') →
     folder_id f' = F ∧ folder_name f' = n ∧ folder_parentId f' = Some P ∧
     Prisma.folder_findUnique s' F = Some f') ∧
  (∀ e s', updateFolder sch F n (Some P) s = Some (Thrown e, s') → s' = s) ∧
  updateFolder sch F n (Some P) s ≠ None ∧
  (∀ fuel U targets G,
     findParentFolders fuel s U F = Some targets → G ∈ targets →
     Prisma.folder_exists s (folder_id G) = true).
Proof.
  intros HP.
  pose proof (updateFolder_cases sch F n (Some P) s) as Hc.
  rewrite or_null_Some in Hc by done.
  split_and!.
  5: { intros fuel U targets G Hr HG.
    apply (findParentFolders_elem _ _ _ _ _ _ Hr) in HG as (? & _).
    apply folder_exists_true. by exists G. }
  2: { intros f' s' Hrun.
    apply updateFolder_returned in Hrun. by rewrite or_null_Some in Hrun. }
  all: destruct (Prisma.folder_findUnique s F) as [old|] eqn:Hold;
    [cbv zeta in Hc;
     destruct (Prisma.folder_violation sch s _ _) as [e|] eqn:Hv|];
    rewrite Hc; clear Hc.
  all: try done.
  all: try (by intros ? ? [= _ <-]).
  - (* the store refuses the row *)
    split; [by intros (? & ? & [=])|]. intros (_ & Hfk & Hu).
    assert (Prisma.folder_violation sch s
              (filter (λ f, folder_id f ≠ F) (folders s))
              (mkFolder F n (folder_userId old) (Some P)) = None) as Hn;
      [|congruence].
    apply folder_violation_None. simpl. split.
    + intros Hf q [= <-]. by apply Hfk.
    + intros Huq (q & g & [= <-] & Hg & Hn' & Hp').
      apply list_elem_of_filter in Hg as [? ?]. apply (Hu Huq). by exists g.
  - (* the store accepts the row *)
    split; [intros _|by eauto].
    apply folder_violation_None in Hv as [Hfk Hu]. simpl in *.
    split_and!.
    + apply folder_findUnique_Some in Hold. by exists old.
    + intros Hf. by apply (Hfk Hf).
    + intros Huq (g & Hg & Hne & Hn' & Hp'). apply (Hu Huq).
      exists P, g. split_and!; try done. by apply list_elem_of_filter.
  - split; [by intros (? & ? & [=])|]. intros ((f & Hf & Hid) & _).
    by destruct (proj1 (folder_findUnique_None s F) Hold f Hf).
Qed.

(** ** Rows under the primary key *)

Lemma NoDup_fmap_elem_eq {A B} (g : A → B) (l : list A) x y :
  NoDup (g <$> l) → x ∈ l → y ∈ l → g x = g y → x = y.
Proof.
  intros Hnd [i Hi]%list_elem_of_lookup [j Hj]%list_elem_of_lookup Heq.
  assert (i = j) as ->; [|congruence].
  eapply NoDup_lookup; [exact Hnd| |].
  - by rewrite list_lookup_fmap, Hi.
  - by rewrite list_lookup_fmap, Hj, Heq.
Qed.

Lemma folder_findUnique_unique s f :
  unique_ids s → f ∈ folders s → Prisma.folder_findUnique s (folder_id f) = Some f.
Proof.
  intros Hu Hf.
  destruct (proj2 (folder_findUnique_is_Some s (folder_id f))) as [g Hg];
    [by exists f|].
  rewrite Hg. f_equal.
  apply folder_findUnique_Some in Hg as [Hg Hid].
  by apply (NoDup_fmap_elem_eq folder_id (folders s)).
Qed.





(** ** Share link creation *)

Lemma createShareLink_cases sch F e s :
  let row := mkShareLink (nextShareLinkId s) F e in
  createShareLink sch F e s =
    if foreign_keys sch && negb (Prisma.folder_exists s F)
    then Some (Thrown ForeignKeyConstraintFailed, s)
    else Some (Returned row,
               Prisma.log (WCreateShareLink (nextShareLinkId s))
                 (mkStore (users s) (folders s) (files s) (shareLinks s ++ [row])
                    (nextUserId s) (nextFolderId s) (nextFileId s)
                    (nextShareLinkId s + 1) (journal s))).
Proof.
  run_db. unfold Prisma.shareLink_create, Prisma.shareLink_violation. simpl.
  by destruct (foreign_keys sch && negb (Prisma.folder_exists s F)).
Qed.

(** C8, as stated, fails.  Folder 9 does not exist in the demo store, and
    where the schema does not enforce the reference [createShareLink]
    returns a share link on it; where it does, what is thrown is the
    foreign-key error of the store.  An expiry is not looked at either: the
    link on folder 3 that is created with expiry 5 is expired at time 10. *)
Lemma createShareLink_tests_neither_folder_nor_expiry :
  Prisma.folder_exists demo 9 = false ∧
  (∃ s', createShareLink lax 9 50 demo = Some (Returned (mkShareLink 3 9 50), s')) ∧
  createShareLink strict 9 50 demo = Some (Thrown ForeignKeyConstraintFailed, demo) ∧
  (∃ s', createShareLink strict 3 5 demo = Some (Returned (mkShareLink 3 3 5), s') ∧
         resolveShareLink_spec 10 s' 3 = Expired).
Proof.
  split_and!; [reflexivity| |reflexivity|]; eexists; [reflexivity|].
  split; reflexivity.
Qed.

(** C8, amended: [createShareLink] makes no test of its own.  It returns
    exactly when the store accepts the row, that is, unless references are
    enforced and the folder does not exist; then it throws the foreign-key
    error of the store and changes nothing.  When it returns, the row it
    returns has the next id, the folder id and the expiry it was given,
    whatever they are, and is the one row that was appended. *)
Theorem createShareLink_stores_what_it_is_given
    (sch : Schema) (s : Store) (F expiresAt : Z) :
  let row := mkShareLink (nextShareLinkId s) F expiresAt in
  ((∃ l s', createShareLink sch F expiresAt s = Some (Returned l, s')) ↔
     (foreign_keys sch = true → Prisma.folder_exists s F = true)) ∧
  (∀ l s', createShareLink sch F expiresAt s = Some (Returned l, s') →
     l = row ∧ shareLinks s' = shareLinks s ++ [row] ∧
     folders s' = folders s ∧ files s' = files s ∧ users s' = users s) ∧
  (∀ e s', createShareLink sch F expiresAt s = Some (Thrown e, s') →
     e = ForeignKeyConstraintFailed ∧ s' = s) ∧
  createShareLink sch F expiresAt s ≠ None.
Proof.
  intros row. pose proof (createShareLink_cases sch F expiresAt s) as Hc.
  cbv zeta in Hc. fold row in Hc. rewrite Hc.
  destruct (foreign_keys sch), (Prisma.folder_exists s F); simpl; split_and!;
    try done; try (by intros ? ? [= <- <-]);
    (split; [|intros H]); try done; try (by eexists _, _).
  - by intros (? & ? & [=]).
  - by specialize (H eq_refl).
Qed.

(** Moving Reports (3) from Docs to Home (1) in the demo store. *)
Lemma updateFolder_moves_unvalidated_witness :
  1 ≠ 0 ∧
  ∃ f' s', updateFolder strict 3 "Reports" (Some 1) demo = Some (Returned f', s') ∧
           folder_parentId f' = Some 1.
Proof.
  split; [lia|].
  destruct (updateFolder_moves_unvalidated strict demo 3 "Reports" 1)
    as (Hiff & Heff & _); [lia|].
  destruct (proj2 Hiff) as (f' & s' & Hrun).
  - split_and!.
    + exists (mkFolder 3 "Reports" 1 (Some 2)). split; [|reflexivity].
      unfold demo; simpl. set_solver.
    + reflexivity.
    + intros _ (g & Hg & Hne & Hn & Hp). unfold demo in Hg; simpl in Hg.
      repeat (apply elem_of_cons in Hg as [->|Hg]; [by simplify_eq/=|]).
      by apply elem_of_nil in Hg.
  - exists f', s'. split; [exact Hrun|]. by apply (Heff f' s').
Defined.


(** ** The child relation and its closure *)

Lemma child_of_findMany s p c :
  child_of s p c ↔
  ∃ f, f ∈ Prisma.folder_findMany_parentId s p ∧ folder_id f = c.
Proof.
  unfold child_of, Prisma.folder_findMany_parentId.
  setoid_rewrite list_elem_of_filter. naive_solver.
Qed.

Lemma child_of_exists s p c : child_of s p c → Prisma.folder_exists s c = true.
Proof. intros (f & Hf & Hid & _). apply folder_exists_true. by exists f. Qed.

Lemma child_of_mono s s' p c :
  folders s' ⊆ folders s → child_of s' p c → child_of s p c.
Proof. intros Hsub (f & Hf & ?). exists f. split; [by apply Hsub|done]. Qed.

Lemma descendant_mono s s' a x :
  folders s' ⊆ folders s → descendant s' a x → descendant s a x.
Proof.
  intros Hsub. induction 1 as [a x H|a c x H _ IH].
  - apply tc_once. by eapply child_of_mono.
  - eapply tc_l; [by eapply child_of_mono|done].
Qed.

Lemma in_subtree_mono s s' a x :
  folders s' ⊆ folders s → in_subtree s' a x → in_subtree s a x.
Proof. intros Hsub [->|H]; [by left|right; by eapply descendant_mono]. Qed.

Lemma descendant_inv_l s p x :
  descendant s p x ↔ ∃ c, child_of s p c ∧ in_subtree s c x.
Proof.
  split.
  - intros H. inversion H as [? ? Hc|? c ? Hc Ht]; subst.
    + exists x. split; [done|by left].
    + exists c. split; [done|by right].
  - intros (c & Hc & [->|Ht]); [by apply tc_once|by eapply tc_l].
Qed.

Lemma descendant_inv_r s a x :
  descendant s a x ↔ ∃ y, in_subtree s a y ∧ child_of s y x.
Proof.
  split.
  - revert x. apply tc_ind_r.
    + intros x Hc. exists a. split; [by left|done].
    + intros y x Hay Hc _. exists y. split; [by right|done].
  - intros (y & [->|Ht] & Hc); [by apply tc_once|by eapply tc_r].
Qed.

Lemma in_subtree_step s a y x :
  in_subtree s a y → child_of s y x → descendant s a x.
Proof. intros. apply descendant_inv_r. by exists y. Qed.

Lemma descendant_exists s a x : descendant s a x → Prisma.folder_exists s x = true.
Proof.
  intros (y & _ & Hc)%descendant_inv_r. by eapply child_of_exists.
Qed.

Lemma unique_parent s p p' c :
  unique_ids s → child_of s p c → child_of s p' c → p = p'.
Proof.
  intros Hu (f & Hf & Hid & Hp) (f' & Hf' & Hid' & Hp').
  assert (f = f') as <-; [|congruence].
  apply (NoDup_fmap_elem_eq folder_id (folders s)); [done..|congruence].
Qed.

(** Under the primary key the ancestors of a folder form a line. *)
Lemma ancestors_linear s a b x :
  unique_ids s → descendant s a x → descendant s b x →
  a = b ∨ descendant s a b ∨ descendant s b a.
Proof.
  intros Hu Ha. revert b. revert x Ha. apply (tc_ind_r (λ x, ∀ b, descendant s b x → _)).
  - intros x Hax b (y & Hby & Hyx)%descendant_inv_r.
    rewrite (unique_parent s a y x Hu Hax Hyx).
    destruct Hby as [->|Hby]; [by left|by right; right].
  - intros z x Haz Hzx IH b (y & Hby & Hyx)%descendant_inv_r.
    rewrite <- (unique_parent s z y x Hu Hzx Hyx) in Hby.
    destruct Hby as [->|Hby]; [by right; left|]. by apply IH.
Qed.

(** In an acyclic store under the primary key, no child of a folder lies
    below another child of the same folder. *)
Lemma siblings_apart s F c c' :
  unique_ids s → acyclic s → child_of s F c → child_of s F c' →
  ¬ descendant s c c'.
Proof.
  intros Hu Hac Hc Hc' (y & Hcy & Hyc')%descendant_inv_r.
  rewrite <- (unique_parent s F y c' Hu Hc' Hyc') in Hcy.
  apply (Hac c). eapply in_subtree_step; [|exact Hc]. done.
Qed.

(** ** Depth of the tree *)

Lemma bounded_weaken s n m p : (n ≤ m)%nat → bounded s n p → bounded s m p.
Proof.
  intros Hle Hb. revert m Hle. induction Hb as [n p _ IH]. intros m Hle.
  destruct m as [|m]; [lia|]. constructor. intros c Hc. apply IH; [done|lia].
Qed.

Lemma bounded_mono s s' n p :
  folders s' ⊆ folders s → bounded s n p → bounded s' n p.
Proof.
  intros Hsub Hb. induction Hb as [n p _ IH]. constructor.
  intros c Hc. apply IH. by eapply child_of_mono.
Qed.

Lemma bounded_child s n p c : bounded s (S n) p → child_of s p c → bounded s n c.
Proof. inversion 1; auto. Qed.

(** A path of distinct existing folders, all above [p], cannot be longer
    than the folder table; so without cycles the depth below any folder is
    bounded by the number of folders. *)
Lemma acyclic_bounded_path s (path : list Z) p m :
  acyclic s → NoDup path →
  (∀ y, y ∈ path → y ∈ folder_id <$> folders s) →
  (∀ y, y ∈ path → in_subtree s y p) →
  (length (folders s) ≤ length path + m)%nat →
  bounded s (S m) p.
Proof.
  intros Hac. revert path p. induction m as [|m IH]; intros path p Hnd Hin Hup Hlen.
  - constructor. intros c Hc. exfalso.
    assert (c ∉ path) as Hc'.
    { intros Hcp. apply (Hac c). eapply in_subtree_step; [by apply Hup|done]. }
    assert (length (c :: path) ≤ length (folder_id <$> folders s))%nat as Hle.
    { apply submseteq_length, NoDup_submseteq; [by constructor|].
      intros y [->|Hy]%elem_of_cons; [|by apply Hin].
      destruct Hc as (f & Hf & <- & _). by apply list_elem_of_fmap_2. }
    rewrite length_fmap in Hle. simpl in Hle. lia.
  - constructor. intros c Hc.
    assert (c ∉ path) as Hc'.
    { intros Hcp. apply (Hac c). eapply in_subtree_step; [by apply Hup|done]. }
    apply (IH (c :: path)).
    + by constructor.
    + intros y [->|Hy]%elem_of_cons; [|by apply Hin].
      destruct Hc as (f & Hf & <- & _). by apply list_elem_of_fmap_2.
    + intros y [->|Hy]%elem_of_cons; [by left|].
      right. eapply in_subtree_step; [by apply Hup|done].
    + simpl. lia.
Qed.

Lemma acyclic_bounded s p :
  acyclic s → bounded s (S (length (folders s))) p.
Proof.
  intros Hac. apply (acyclic_bounded_path s [] p); [done|constructor|..].
  - by intros y Hy%elem_of_nil.
  - by intros y Hy%elem_of_nil.
  - simpl. lia.
Qed.

(** ** The descendant walk *)

(** The loop of [findChildren] over the subfolders that were found. *)
Local Abbreviation find_loop fuel s :=
  (foldl
     (λ acc subfolder,
        descendants ← acc;
        findChildren fuel s (folder_id subfolder)
          (descendants ++ [folder_id subfolder]))).

Lemma findChildren_S fuel s p acc :
  findChildren (S fuel) s p acc
  = find_loop fuel s (Some acc) (Prisma.folder_findMany_parentId s p).
Proof. reflexivity. Qed.

Lemma find_loop_None fuel s subs : find_loop fuel s None subs = None.
Proof. by induction subs. Qed.

Lemma find_loop_cons fuel s acc sub subs :
  find_loop fuel s (Some acc) (sub :: subs)
  = find_loop fuel s
      (findChildren fuel s (folder_id sub) (acc ++ [folder_id sub])) subs.
Proof. reflexivity. Qed.

(** What was pushed is what lies below the folder. *)
Lemma findChildren_pushes fuel s p acc r :
  findChildren fuel s p acc = Some r →
  ∃ new, r = acc ++ new ∧ ∀ x, x ∈ new ↔ descendant s p x.
Proof.
  revert p acc r. induction fuel as [|fuel IH]; intros p acc r; [done|].
  rewrite findChildren_S. intros Hr.
  cut (∃ new, r = acc ++ new ∧
         ∀ x, x ∈ new ↔
           ∃ f, f ∈ Prisma.folder_findMany_parentId s p ∧
                in_subtree s (folder_id f) x).
  { intros (new & -> & Hnew). exists new. split; [done|]. intros x.
    rewrite Hnew, descendant_inv_l. setoid_rewrite child_of_findMany.
    naive_solver. }
  revert acc r Hr.
  induction (Prisma.folder_findMany_parentId s p) as [|sub subs IHs];
    intros acc r Hr.
  - simplify_eq/=. exists []. rewrite app_nil_r. split; [done|].
    intros x. rewrite elem_of_nil. split; [done|].
    by intros (f & ?%elem_of_nil & _).
  - rewrite find_loop_cons in Hr.
    destruct (findChildren fuel s (folder_id sub) (acc ++ [folder_id sub]))
      as [r1|] eqn:E1; [|by rewrite find_loop_None in Hr].
    apply IH in E1 as (new1 & -> & Hnew1).
    apply IHs in Hr as (new2 & -> & Hnew2).
    exists (folder_id sub :: new1 ++ new2). split.
    { by rewrite <- !app_assoc. }
    intros x. rewrite elem_of_cons, elem_of_app, Hnew1, Hnew2.
    setoid_rewrite elem_of_cons. unfold in_subtree. naive_solver.
Qed.

(** The walk returns exactly when the nesting it may use exceeds the depth
    of the tree below the folder. *)
Lemma findChildren_returns fuel s p acc :
  is_Some (findChildren fuel s p acc) ↔ bounded s fuel p.
Proof.
  revert p acc. induction fuel as [|fuel IH]; intros p acc.
  { split; [by intros [? ?]|inversion 1]. }
  rewrite findChildren_S.
  cut (is_Some (find_loop fuel s (Some acc) (Prisma.folder_findMany_parentId s p))
       ↔ ∀ f, f ∈ Prisma.folder_findMany_parentId s p → bounded s fuel (folder_id f)).
  { intros ->. split.
    - intros H. constructor. intros c (f & Hf & <-)%child_of_findMany. by apply H.
    - intros H f Hf. eapply bounded_child; [done|].
      apply child_of_findMany. by exists f. }
  revert acc.
  induction (Prisma.folder_findMany_parentId s p) as [|sub subs IHs]; intros acc.
  - simpl. split; [by intros _ f ?%elem_of_nil|by eauto].
  - rewrite find_loop_cons.
    destruct (findChildren fuel s (folder_id sub) (acc ++ [folder_id sub]))
      as [r1|] eqn:E1.
    + rewrite IHs. split.
      * intros H f [->|Hf]%elem_of_cons; [|by apply H].
        apply (IH _ (acc ++ [folder_id sub])). by rewrite E1.
      * intros H f Hf. apply H. by right.
    + rewrite find_loop_None. split; [by intros [? ?]|].
      intros H. exfalso.
      assert (is_Some (findChildren fuel s (folder_id sub) (acc ++ [folder_id sub])))
        as [? ?]; [|congruence].
      apply IH, H. by left.
Qed.

Lemma filter_unique_ids (P : Folder → Prop) `{!∀ f, Decision (P f)} s :
  unique_ids s → NoDup (folder_id <$> filter P (folders s)).
Proof.
  intros Hu. eapply sublist_NoDup; [exact Hu|].
  apply fmap_sublist, sublist_filter.
Qed.

(** Under the primary key and without cycles no folder is pushed twice. *)
Lemma findChildren_pushes_once fuel s p acc r :
  unique_ids s → acyclic s →
  findChildren fuel s p acc = Some r →
  ∃ new, r = acc ++ new ∧ NoDup new.
Proof.
  intros Hu Hac. revert p acc r.
  induction fuel as [|fuel IH]; intros p acc r; [done|].
  rewrite findChildren_S. intros Hr.
  cut (∃ new, r = acc ++ new ∧ NoDup new ∧
         ∀ x, x ∈ new →
           ∃ f, f ∈ Prisma.folder_findMany_parentId s p ∧
                in_subtree s (folder_id f) x).
  { intros (new & ? & ? & _). by exists new. }
  assert (Hch : ∀ f, f ∈ Prisma.folder_findMany_parentId s p →
                     child_of s p (folder_id f)).
  { intros f Hf. apply child_of_findMany. by exists f. }
  assert (Hnd : NoDup (folder_id <$> Prisma.folder_findMany_parentId s p)).
  { by apply filter_unique_ids. }
  revert acc r Hr Hch Hnd.
  induction (Prisma.folder_findMany_parentId s p) as [|sub subs IHs];
    intros acc r Hr Hch Hnd.
  - simplify_eq/=. exists []. rewrite app_nil_r. split; [done|].
    split; [constructor|]. by intros x ?%elem_of_nil.
  - rewrite find_loop_cons in Hr.
    destruct (findChildren fuel s (folder_id sub) (acc ++ [folder_id sub]))
      as [r1|] eqn:E1; [|by rewrite find_loop_None in Hr].
    destruct (findChildren_pushes _ _ _ _ _ E1) as (new1 & -> & Hnew1).
    apply IH in E1 as (new1' & Heq & Hnd1).
    apply app_inv_head in Heq as <-.
    rewrite fmap_cons in Hnd. apply NoDup_cons in Hnd as [Hsub Hnds].
    apply IHs in Hr as (new2 & -> & Hnd2 & Hnew2);
      [|by intros f Hf; apply Hch; right|done].
    assert (Hself : child_of s p (folder_id sub)) by (apply Hch; by left).
    assert (Hapart : ∀ x, x ∈ new2 → ¬ in_subtree s (folder_id sub) x).
    { intros x (f & Hf & Hfx)%Hnew2 Hsx.
      assert (child_of s p (folder_id f)) as Hcf by (apply Hch; by right).
      assert (folder_id sub ≠ folder_id f) as Hne.
      { intros Heq. apply Hsub. rewrite Heq. by apply list_elem_of_fmap_2. }
      destruct Hfx as [->|Hfx], Hsx as [Heq|Hsx]; try done.
      - by apply (siblings_apart s p (folder_id sub) (folder_id f)).
      - subst x. by apply (siblings_apart s p (folder_id f) (folder_id sub)).
      - destruct (ancestors_linear s _ _ x Hu Hsx Hfx) as [?|[?|?]]; [done|..].
        + by apply (siblings_apart s p (folder_id sub) (folder_id f)).
        + by apply (siblings_apart s p (folder_id f) (folder_id sub)). }
    exists (folder_id sub :: new1 ++ new2). split_and!.
    + by rewrite <- !app_assoc.
    + apply NoDup_cons. split.
      * rewrite elem_of_app, Hnew1. intros [Hd|Hin]; [by apply (Hac _ Hd)|].
        apply (Hapart _ Hin). by left.
      * apply NoDup_app. split_and!; [done| |done].
        intros x Hx%Hnew1 Hx2. apply (Hapart _ Hx2). by right.
    + intros x [->|[Hx%Hnew1|Hx%Hnew2]%elem_of_app]%elem_of_cons.
      * exists sub. split; [by left|by left].
      * exists sub. split; [by left|by right].
      * destruct Hx as (f & Hf & Hfx). exists f. split; [by right|done].
Qed.

Lemma parents_first_acyclic s : parents_first s = true → acyclic s.
Proof.
  intros Hpf.
  assert (Hlt : ∀ a x, descendant s a x → a < x).
  { assert (Hc : ∀ a x, child_of s a x → a < x).
    { intros a x (f & Hf & <- & Hp). unfold parents_first in Hpf.
      rewrite forallb_forall in Hpf.
      specialize (Hpf f (proj1 (list_elem_of_In _ _) Hf)).
      rewrite Hp in Hpf. by apply bool_decide_eq_true in Hpf. }
    induction 1 as [a x H|a c x H _ IH]; [by apply Hc|].
    apply Hc in H. lia. }
  intros x Hx. apply Hlt in Hx. lia.
Qed.

Lemma findDescendantFolders_result s F fuel :
  acyclic s → (length (folders s) < fuel)%nat →
  ∃ ds, findDescendantFolders fuel s F = Some ds ∧
    (F ∉ ds) ∧ (∀ G, G ∈ ds ↔ descendant s F G) ∧
    (unique_ids s → NoDup ds).
Proof.
  intros Hac Hfuel. unfold findDescendantFolders.
  destruct (proj2 (findChildren_returns fuel s F [])) as [ds Hds].
  { eapply bounded_weaken; [|by apply acyclic_bounded]. lia. }
  exists ds. split; [done|].
  destruct (findChildren_pushes _ _ _ _ _ Hds) as (new & -> & Hnew). simpl.
  split_and!.
  - rewrite Hnew. apply Hac.
  - done.
  - intros Hu. destruct (findChildren_pushes_once _ _ _ _ _ Hu Hac Hds)
      as (new' & Heq & Hnd). simpl in Heq. by subst.
Qed.

(** C7: in a store without cycles, [findDescendantFolders], allowed to nest
    deeper than there are folders, returns a list that does not contain the
    folder itself, contains exactly the folders reachable from it through
    the child relation, holds only ids of the folder table and, ids being
    the primary key, holds none of them twice. *)
Theorem findDescendantFolders_descendants (s : Store) (F : Z) (fuel : nat) :
  acyclic s → (length (folders s) < fuel)%nat →
  ∃ ds, findDescendantFolders fuel s F = Some ds ∧
    (F ∉ ds) ∧
    (∀ G, G ∈ ds ↔ descendant s F G) ∧
    (∀ G, G ∈ ds → G ∈ folder_id <$> folders s) ∧
    (unique_ids s → NoDup ds).
Proof.
  intros Hac Hfuel.
  destruct (findDescendantFolders_result s F fuel Hac Hfuel)
    as (ds & Hds & HF & Hiff & Hnd).
  exists ds. split_and!; try done.
  intros G HG%Hiff%descendant_exists.
  apply folder_exists_true in HG as (f & Hf & <-). by apply list_elem_of_fmap_2.
Qed.

(** The descendants of the home folder of user 1 in the demo store. *)
Lemma findDescendantFolders_descendants_witness :
  ∃ ds, findDescendantFolders 5 demo 1 = Some ds ∧ ds = [2; 3] ∧
        ∀ G, G ∈ ds ↔ descendant demo 1 G.
Proof.
  destruct (findDescendantFolders_descendants demo 1 5) as (ds & Hds & _ & Hiff & _).
  - apply parents_first_acyclic. reflexivity.
  - simpl. lia.
  - exists ds. split; [exact Hds|]. split; [|exact Hiff].
    vm_compute in Hds. congruence.
Defined.

Lemma deleteFolder_S sch fuel F s :
  deleteFolder sch (S fuel) F s =
    match for_each (λ subfolder, deleteFolder sch fuel (folder_id subfolder))
            (Prisma.folder_findMany_parentId (after_files F s) F) (after_files F s)
    with
    | None => None
    | Some (Thrown e, s2) => Some (Thrown e, s2)
    | Some (Returned _, s2) =>
        match Prisma.folder_delete sch F (after_links F s2) with
        | None => None
        | Some (Thrown e, s4) => Some (Thrown e, s4)
        | Some (Returned _, s4) => Some (Returned (), s4)
        end
    end.
Proof.
  simpl. unfold try_catch, log_and_rethrow, throw, query, mbind, Db_bind, mret, Db_ret,
    Prisma.file_deleteMany, Prisma.shareLink_deleteMany.
  fold (after_files F s).
  destruct (for_each _ _ _) as [[[[]|e] s2]|]; try done.
  fold (after_links F s2).
  by destruct (Prisma.folder_delete sch F (after_links F s2)) as [[[?|?] ?]|].
Qed.

Lemma for_each_cons {A} (body : A → Db ()) x xs s :
  for_each body (x :: xs) s =
    match body x s with
    | None => None
    | Some (Thrown e, s') => Some (Thrown e, s')
    | Some (Returned _, s') => for_each body xs s'
    end.
Proof. reflexivity. Qed.

(** ** A deletion only removes rows *)

Lemma shrinks_refl s : shrinks s s.
Proof. by unfold shrinks. Qed.

Lemma shrinks_trans s1 s2 s3 : shrinks s1 s2 → shrinks s2 s3 → shrinks s1 s3.
Proof.
  intros (?&?&?&?&?&?&?&?) (?&?&?&?&?&?&?&?). unfold shrinks.
  split_and!; try congruence; by etrans.
Qed.

Lemma after_files_shrinks F s : shrinks s (after_files F s).
Proof. unfold shrinks. simpl. split_and!; try done. apply sublist_filter. Qed.

Lemma after_links_shrinks F s : shrinks s (after_links F s).
Proof. unfold shrinks. simpl. split_and!; try done. apply sublist_filter. Qed.

Lemma folder_delete_shrinks sch F s r s' :
  Prisma.folder_delete sch F s = Some (r, s') → shrinks s s'.
Proof.
  unfold Prisma.folder_delete.
  destruct (Prisma.folder_findUnique s F); [|intros [= <- <-]; apply shrinks_refl].
  destruct (foreign_keys sch && Prisma.folder_referenced s F);
    intros [= <- <-]; [apply shrinks_refl|].
  unfold shrinks. simpl. split_and!; try done. apply sublist_filter.
Qed.

(** Whatever its outcome, [deleteFolder] only removes rows. *)
Lemma deleteFolder_shrinks sch fuel F s r s' :
  deleteFolder sch fuel F s = Some (r, s') → shrinks s s'.
Proof.
  revert F s r s'. induction fuel as [|fuel IH]; intros F s r s'; [done|].
  rewrite deleteFolder_S.
  assert (Hloop : ∀ subs u r' u',
    for_each (λ subfolder, deleteFolder sch fuel (folder_id subfolder)) subs u
      = Some (r', u') → shrinks u u').
  { induction subs as [|sub subs IHs]; intros u r' u'.
    - intros [= <- <-]. apply shrinks_refl.
    - rewrite for_each_cons.
      destruct (deleteFolder sch fuel (folder_id sub) u) as [[[[]|e] u1]|] eqn:E;
        [|intros [= <- <-]; by eapply IH|done].
      intros Hr. eapply shrinks_trans; [by eapply IH|by eapply IHs]. }
  destruct (for_each _ _ _) as [[[[]|e] s2]|] eqn:E; [| |done].
  - apply Hloop in E.
    destruct (Prisma.folder_delete sch F (after_links F s2)) as [[[?|?] s4]|] eqn:Ed;
      [| |done]; intros [= <- <-];
      (eapply shrinks_trans; [apply after_files_shrinks|];
       eapply shrinks_trans; [exact E|];
       eapply shrinks_trans; [apply after_links_shrinks|];
       by eapply folder_delete_shrinks).
  - intros [= <- <-]. apply Hloop in E.
    eapply shrinks_trans; [apply after_files_shrinks|done].
Qed.

Lemma shrinks_subseteq s s' : shrinks s s' → folders s' ⊆ folders s.
Proof. intros (_ & Hf & _) f Hf'. by eapply elem_of_sublist. Qed.

(** ** Order in a journal *)

Lemma before_intro a b l1 l2 : a ∈ l1 → b ∈ l2 → before a b (l1 ++ l2).
Proof.
  intros (p & q & ->)%list_elem_of_split (p' & q' & ->)%list_elem_of_split.
  exists p, (q ++ p'), q'. rewrite <- !app_assoc. simpl.
  by rewrite <- ?app_assoc.
Qed.

Lemma before_app_l a b tr tr' : before a b tr → before a b (tr ++ tr').
Proof.
  intros (l1 & l2 & l3 & ->). exists l1, l2, (l3 ++ tr').
  rewrite <- !app_assoc. simpl. by rewrite <- ?app_assoc.
Qed.

Lemma before_app_r a b tr tr' : before a b tr → before a b (tr' ++ tr).
Proof.
  intros (l1 & l2 & l3 & ->). exists (tr' ++ l1), l2, l3.
  by rewrite <- !app_assoc.
Qed.

(** ** Removing rows *)

Lemma filter_not_in_app {A} (g : A → Z) (X1 X2 : list Z) (l : list A) :
  filter (λ a, g a ∉ X2) (filter (λ a, g a ∉ X1) l)
  = filter (λ a, g a ∉ X1 ++ X2) l.
Proof.
  rewrite list_filter_filter. apply list_filter_iff. intros a.
  rewrite elem_of_app. tauto.
Qed.

Lemma filter_ne_not_in {A} (g : A → Z) (F : Z) (X : list Z) (l : list A) :
  filter (λ a, g a ∉ X) (filter (λ a, g a ≠ F) l)
  = filter (λ a, g a ∉ F :: X) l.
Proof.
  rewrite list_filter_filter. apply list_filter_iff. intros a.
  rewrite elem_of_cons. tauto.
Qed.

Lemma filter_not_in_ne {A} (g : A → Z) (F : Z) (X : list Z) (l : list A) :
  filter (λ a, g a ≠ F) (filter (λ a, g a ∉ X) l)
  = filter (λ a, g a ∉ F :: X) l.
Proof.
  rewrite list_filter_filter. apply list_filter_iff. intros a.
  rewrite elem_of_cons. tauto.
Qed.

Lemma without_nil s : without [] s s.
Proof.
  unfold without. split_and!; try done;
    (symmetry; induction (_ s) as [|a l IH]; [done|];
     rewrite filter_cons_True by apply not_elem_of_nil; by f_equal).
Qed.

Lemma without_app X1 X2 s s1 s2 :
  without X1 s s1 → without X2 s1 s2 → without (X1 ++ X2) s s2.
Proof.
  intros (Hf1 & Hx1 & Hl1 & Hu1) (Hf2 & Hx2 & Hl2 & Hu2).
  unfold without. rewrite Hf2, Hx2, Hl2, Hu2, Hf1, Hx1, Hl1, Hu1.
  by rewrite !filter_not_in_app.
Qed.

Lemma without_subseteq X s s' : without X s s' → folders s' ⊆ folders s.
Proof. intros (-> & _) f Hf. by apply list_elem_of_filter in Hf as [_ ?]. Qed.

Lemma without_unique_ids X s s' : without X s s' → unique_ids s → unique_ids s'.
Proof. intros (Hf & _) Hu. unfold unique_ids. rewrite Hf. by apply filter_unique_ids. Qed.

Lemma without_exists X s s' c :
  without X s s' → Prisma.folder_exists s c = true → c ∉ X →
  Prisma.folder_exists s' c = true.
Proof.
  intros (Hf & _) (f & Hin & <-)%folder_exists_true Hc.
  apply folder_exists_true. exists f. split; [|done].
  rewrite Hf. by apply list_elem_of_filter.
Qed.

Lemma without_child X s s' x y :
  without X s s' → child_of s x y → y ∉ X → child_of s' x y.
Proof.
  intros (Hf & _) (f & Hin & <- & Hp) Hy. exists f. split; [|done].
  rewrite Hf. by apply list_elem_of_filter.
Qed.

(** ** Disjoint subtrees *)

Lemma bounded_below s n p x : bounded s n p → in_subtree s p x → bounded s n x.
Proof.
  intros Hb [->|Hd]; [done|]. revert n Hb.
  induction Hd as [p x Hc|p c x Hc _ IH]; intros n Hb;
    destruct n as [|n]; try (by inversion Hb).
  - eapply bounded_weaken; [|by eapply bounded_child]. lia.
  - apply IH. eapply bounded_weaken; [|by eapply bounded_child]. lia.
Qed.

Lemma bounded_irreflexive s n p : bounded s n p → ¬ descendant s p p.
Proof.
  revert p. induction n as [|n IH]; intros p Hb; [by inversion Hb|].
  intros (c & Hc & Hcp)%descendant_inv_l.
  apply (IH c); [by eapply bounded_child|].
  by eapply in_subtree_step.
Qed.

Lemma bounded_no_cycle s n p x :
  bounded s n p → in_subtree s p x → ¬ descendant s x x.
Proof. intros Hb Hx. eapply bounded_irreflexive, bounded_below; done. Qed.

(** Children of one folder whose subtree has no cycle do not lie below each
    other. *)
Lemma children_apart s n F c c' :
  unique_ids s → bounded s n F → child_of s F c → child_of s F c' →
  ¬ descendant s c c'.
Proof.
  intros Hu Hb Hc Hc' (y & Hcy & Hyc')%descendant_inv_r.
  rewrite <- (unique_parent s F y c' Hu Hc' Hyc') in Hcy.
  apply (bounded_no_cycle s n F c Hb); [right; by apply tc_once|].
  by eapply in_subtree_step.
Qed.

(** Two folders that do not lie below each other have disjoint subtrees. *)
Lemma subtrees_disjoint s c c' z :
  unique_ids s → c ≠ c' → ¬ descendant s c c' → ¬ descendant s c' c →
  in_subtree s c z → in_subtree s c' z → False.
Proof.
  intros Hu Hne H1 H2 [->|Hz] [Heq|Hz']; try done.
  - by subst.
  - destruct (ancestors_linear s c c' z Hu Hz Hz') as [?|[?|?]]; done.
Qed.

(** Removing the subtree of [c] leaves the subtree of [c'] as it was. *)
Lemma subtree_survives X s s' c c' x :
  unique_ids s → without X s s' → (∀ z, z ∈ X ↔ in_subtree s c z) →
  c ≠ c' → ¬ descendant s c c' → ¬ descendant s c' c →
  in_subtree s c' x → in_subtree s' c' x.
Proof.
  intros Hu Hw HX Hne H1 H2 [->|Hd]; [by left|]. right.
  revert x Hd. apply tc_ind_r.
  - intros x Hc. apply tc_once. eapply without_child; [done..|].
    rewrite HX. intros Hx.
    apply (subtrees_disjoint s c c' x); try done. right. by apply tc_once.
  - intros y x Hy Hc IH. eapply tc_r; [exact IH|].
    eapply without_child; [done..|].
    rewrite HX. intros Hx.
    apply (subtrees_disjoint s c c' x); try done. right. by eapply tc_r.
Qed.

(** ** Deleting a subtree *)

Lemma delete_loop sch fuel :
  (∀ u c, unique_ids u → bounded u fuel c → Prisma.folder_exists u c = true →
     ∃ u' X tr, deleted_subtree sch fuel c u u' X tr) →
  ∀ subs u, unique_ids u →
    (∀ f, f ∈ subs →
       bounded u fuel (folder_id f) ∧ Prisma.folder_exists u (folder_id f) = true) →
    NoDup (folder_id <$> subs) →
    (∀ f f', f ∈ subs → f' ∈ subs → ¬ descendant u (folder_id f) (folder_id f')) →
    ∃ u' X tr,
      for_each (λ subfolder, deleteFolder sch fuel (folder_id subfolder)) subs u
        = Some (Returned (), u') ∧
      without X u u' ∧
      (∀ x, x ∈ X ↔ ∃ f, f ∈ subs ∧ in_subtree u (folder_id f) x) ∧
      journal u' = journal u ++ tr ∧
      (∀ f, f ∈ subs →
         WDeleteFiles (folder_id f) ∈ tr ∧ WDeleteFolder (folder_id f) ∈ tr) ∧
      trace_ok u X tr.
Proof.
  intros IH subs. induction subs as [|sub subs IHs]; intros u Hu Hpre Hnd Hind.
  - exists u, [], []. split_and!.
    + done.
    + apply without_nil.
    + intros x. rewrite elem_of_nil. split; [done|].
      by intros (f & ?%elem_of_nil & _).
    + by rewrite app_nil_r.
    + by intros f ?%elem_of_nil.
    + split; [by intros x ?%elem_of_nil|by intros x y ?%elem_of_nil].
  - destruct (Hpre sub) as [Hb He]; [by left|].
    destruct (IH u (folder_id sub) Hu Hb He)
      as (u1 & X1 & tr1 & Hrun1 & Hw1 & HX1 & Hj1 & (mid & Htr1) & Hok1a & Hok1b).
    rewrite fmap_cons in Hnd. apply NoDup_cons in Hnd as [Hsub Hnd].
    assert (Hne : ∀ f, f ∈ subs → folder_id sub ≠ folder_id f).
    { intros f Hf Heq. apply Hsub. rewrite Heq. by apply list_elem_of_fmap_2. }
    assert (Hout : ∀ f z, f ∈ subs → in_subtree u (folder_id f) z → z ∉ X1).
    { intros f z Hf Hz HzX. apply HX1 in HzX.
      apply (subtrees_disjoint u (folder_id sub) (folder_id f) z); try done.
      - by apply Hne.
      - apply Hind; [by left|by right].
      - apply Hind; [by right|by left]. }
    pose proof (without_subseteq _ _ _ Hw1) as Hsubset.
    destruct (IHs u1) as (u2 & X2 & tr2 & Hrun2 & Hw2 & HX2 & Hj2 & Hin2 & Hok2a & Hok2b).
    { by eapply without_unique_ids. }
    { intros f Hf. destruct (Hpre f) as [Hbf Hef]; [by right|]. split.
      - by eapply bounded_mono.
      - eapply without_exists; [done..|]. apply (Hout f); [done|by left]. }
    { done. }
    { intros f f' Hf Hf' Hd. apply (Hind f f'); [by right..|].
      by eapply descendant_mono. }
    exists u2, (X1 ++ X2), (tr1 ++ tr2). split_and!.
    + by rewrite for_each_cons, Hrun1.
    + by eapply without_app.
    + intros x. rewrite elem_of_app, HX1, HX2. split.
      * intros [Hx|(f & Hf & Hx)].
        -- exists sub. split; [by left|done].
        -- exists f. split; [by right|]. by eapply in_subtree_mono.
      * intros (f & [->|Hf]%elem_of_cons & Hx); [by left|]. right.
        exists f. split; [done|].
        eapply (subtree_survives X1 u u1 (folder_id sub)); try done.
        -- by apply Hne.
        -- apply Hind; [by left|by right].
        -- apply Hind; [by right|by left].
    + by rewrite Hj2, Hj1, app_assoc.
    + intros f [->|Hf]%elem_of_cons.
      * rewrite Htr1. split; apply elem_of_app; left; [by left|].
        right. apply elem_of_app. right. set_solver.
      * destruct (Hin2 f Hf). split; apply elem_of_app; by right.
    + split.
      * intros x [Hx|Hx]%elem_of_app.
        -- destruct (Hok1a x Hx). split; by apply before_app_l.
        -- destruct (Hok2a x Hx). split; by apply before_app_r.
      * intros x y [Hx|Hx]%elem_of_app Hc.
        -- destruct (Hok1b x y Hx Hc). split; by apply before_app_l.
        -- destruct (Hok2b x y Hx) as [? ?]; [|split; by apply before_app_r].
           apply HX2 in Hx as (f & Hf & Hx).
           eapply without_child; [done..|]. apply (Hout f); [done|].
           right. eapply in_subtree_step; [|done]. by eapply in_subtree_mono.
Qed.

Lemma folder_delete_unreferenced sch F s :
  Prisma.folder_exists s F = true →
  Prisma.folder_referenced s F = false →
  ∃ old, Prisma.folder_delete sch F s =
    Some (Returned old,
          Prisma.log (WDeleteFolder F)
            (Prisma.set_folders (filter (λ f, folder_id f ≠ F) (folders s)) s)).
Proof.
  intros He Hr. unfold Prisma.folder_delete.
  destruct (proj2 (folder_findUnique_is_Some s F)) as [old ->].
  { by apply folder_exists_true. }
  rewrite Hr, andb_false_r. by exists old.
Qed.

Lemma folder_referenced_false s F :
  (∀ f, f ∈ folders s → folder_parentId f ≠ Some F) →
  (∀ x, x ∈ files s → file_folderId x ≠ F) →
  (∀ l, l ∈ shareLinks s → link_folderId l ≠ F) →
  Prisma.folder_referenced s F = false.
Proof.
  intros H1 H2 H3. unfold Prisma.folder_referenced.
  rewrite !bool_decide_eq_false_2; [done|..]; rewrite Exists_exists; naive_solver.
Qed.

Lemma deleteFolder_subtree sch fuel s F :
  unique_ids s → bounded s fuel F → Prisma.folder_exists s F = true →
  ∃ s' X tr, deleted_subtree sch fuel F s s' X tr.
Proof.
  revert s F. induction fuel as [|fuel IH]; intros s F Hu Hb He;
    [by inversion Hb|].
  set (s1 := after_files F s).
  assert (Hf1 : folders s1 = folders s) by done.
  assert (Hsub1 : folders s1 ⊆ folders s) by (by rewrite Hf1).
  assert (Hsub1' : folders s ⊆ folders s1) by (by rewrite Hf1).
  assert (Hb1 : bounded s1 (S fuel) F) by (by apply (bounded_mono s s1)).
  assert (Hchild : ∀ f, f ∈ Prisma.folder_findMany_parentId s1 F →
                        child_of s1 F (folder_id f)).
  { intros f Hf. apply child_of_findMany. by exists f. }
  destruct (delete_loop sch fuel IH (Prisma.folder_findMany_parentId s1 F) s1)
    as (u' & X' & tr' & Hloop & Hw & HX & Hj & Hin & Hoka & Hokb).
  { done. }
  { intros f Hf. split.
    - eapply bounded_child; [exact Hb1|by apply Hchild].
    - eapply child_of_exists. by apply Hchild. }
  { by apply filter_unique_ids. }
  { intros f f' Hf Hf'. eapply (children_apart s1 (S fuel) F); eauto. }
  assert (HFX : F ∉ X').
  { intros (f & Hf & Hx)%HX. apply (bounded_irreflexive s1 (S fuel) F Hb1).
    apply descendant_inv_l. exists (folder_id f). split; [by apply Hchild|done]. }
  destruct Hw as (Hwf & Hwx & Hwl & Hwu).
  destruct (folder_delete_unreferenced sch F (after_links F u')) as [old Hdel].
  { apply folder_exists_true. apply folder_exists_true in He as (f & Hf & Hid).
    exists f. split; [|done]. simpl. rewrite Hwf, Hf1.
    apply list_elem_of_filter. by rewrite Hid. }
  { apply folder_referenced_false; simpl.
    - rewrite Hwf. intros f [Hnot Hf]%list_elem_of_filter Hp. apply Hnot, HX.
      exists f. split; [|by left].
      unfold Prisma.folder_findMany_parentId. by apply list_elem_of_filter.
    - rewrite Hwx. simpl. intros x [_ Hx]%list_elem_of_filter.
      by apply list_elem_of_filter in Hx as [? _].
    - intros l Hl. by apply list_elem_of_filter in Hl as [? _]. }
  eexists _, (F :: X'), (WDeleteFiles F :: tr' ++ [WDeleteShareLinks F; WDeleteFolder F]).
  split_and!.
  - rewrite deleteFolder_S. fold s1. rewrite Hloop, Hdel. done.
  - unfold without. simpl. rewrite Hwf, Hwx, Hwl, Hwu, Hf1. simpl.
    by rewrite filter_not_in_ne, filter_ne_not_in, filter_not_in_ne.
  - intros x. rewrite elem_of_cons, HX. unfold in_subtree at 2.
    rewrite descendant_inv_l. setoid_rewrite child_of_findMany.
    fold (in_subtree s1). split.
    + intros [->|(f & Hf & Hx)]; [by left|]. right.
      exists (folder_id f). split; [by exists f|]. by eapply in_subtree_mono.
    + intros [->|(c & (f & Hf & <-) & Hx)]; [by left|]. right.
      exists f. split; [done|]. by eapply in_subtree_mono.
  - simpl. rewrite Hj. simpl. rewrite <- !app_assoc. done.
  - by exists tr'.
  - split.
    + intros x [->|Hx]%elem_of_cons.
      * split.
        -- exists [], tr', [WDeleteFolder F]. done.
        -- by exists (WDeleteFiles F :: tr'), [], [].
      * destruct (Hoka x Hx) as [Ha Hb'].
        split; apply (before_app_r _ _ _ [WDeleteFiles F]), before_app_l; done.
    + intros x y [->|Hx]%elem_of_cons Hc.
      * apply (child_of_mono s1 s) in Hc; [|done].
        apply child_of_findMany in Hc as (f & Hf & <-).
        destruct (Hin f Hf) as [Hfiles Hrow]. split.
        -- apply (before_intro _ _ [WDeleteFiles F]); [by left|].
           apply elem_of_app. by left.
        -- apply (before_intro _ _ (WDeleteFiles F :: tr')); [by right|by left].
      * apply (child_of_mono s1 s) in Hc; [|done].
        destruct (Hokb x y Hx Hc) as [Ha Hb'].
        split; apply (before_app_r _ _ _ [WDeleteFiles F]), before_app_l; done.
Qed.

Lemma findMany_after_delete X s s' F :
  without X s s' → (∀ x, in_subtree s F x → x ∈ X) →
  Prisma.folder_findMany_parentId s' F = [].
Proof.
  intros Hw HX. unfold Prisma.folder_findMany_parentId.
  destruct (filter _ (folders s')) as [|f l] eqn:E; [done|]. exfalso.
  assert (f ∈ filter (λ f, folder_parentId f = Some F) (folders s')) as Hf.
  { rewrite E. by left. }
  apply list_elem_of_filter in Hf as [Hp Hf].
  destruct Hw as (Hwf & _). rewrite Hwf in Hf.
  apply list_elem_of_filter in Hf as [Hnot Hf]. apply Hnot, HX.
  right. apply tc_once. by exists f.
Qed.

(** C2: for an existing folder whose subtree is no deeper than the nesting
    allowed (ids being the primary key), [deleteFolder] returns, and
    afterwards exactly the folder and its descendants are gone from the
    folder table, exactly the files in them from the file table and exactly
    the share links on them from the share-link table; the folder is not
    found any more and has no descendants.  The statements ran in this
    order: the call starts with the files of the folder and ends with its
    share links and then its row; for every folder of the subtree the files
    go first, then the share links, then the row; and for every folder of
    the subtree and each of its subfolders, the files of the folder go
    before the files of the subfolder, and the row of the subfolder goes
    before the share links of the folder. *)
Theorem deleteFolder_removes_subtree
    (sch : Schema) (s : Store) (F : Z) (fuel : nat) :
  unique_ids s → Prisma.folder_exists s F = true → bounded s fuel F →
  ∃ (s' : Store) (X : list Z) (tr : list Write),
    deleteFolder sch fuel F s = Some (Returned (), s') ∧
    (∀ x, x ∈ X ↔ x = F ∨ descendant s F x) ∧
    folders s' = filter (λ f, folder_id f ∉ X) (folders s) ∧
    files s' = filter (λ x, file_folderId x ∉ X) (files s) ∧
    shareLinks s' = filter (λ l, link_folderId l ∉ X) (shareLinks s) ∧
    findFolder s' F = None ∧
    findDescendantFolders 1 s' F = Some [] ∧
    journal s' = journal s ++ tr ∧
    (∃ mid, tr = WDeleteFiles F :: mid ++ [WDeleteShareLinks F; WDeleteFolder F]) ∧
    (∀ x, x ∈ X →
       before (WDeleteFiles x) (WDeleteShareLinks x) tr ∧
       before (WDeleteShareLinks x) (WDeleteFolder x) tr) ∧
    (∀ x y, x ∈ X → child_of s x y →
       before (WDeleteFiles x) (WDeleteFiles y) tr ∧
       before (WDeleteFolder y) (WDeleteShareLinks x) tr).
Proof.
  intros Hu He Hb.
  destruct (deleteFolder_subtree sch fuel s F Hu Hb He)
    as (s' & X & tr & Hrun & Hw & HX & Hj & Hmid & Hoka & Hokb).
  exists s', X, tr. pose proof Hw as (Hwf & Hwx & Hwl & _).
  split_and!; try done.
  - unfold findFolder.
    assert (Prisma.folder_findUnique s' F = None) as ->; [|done].
    apply folder_findUnique_None. rewrite Hwf.
    intros f [Hnot _]%list_elem_of_filter Hid. apply Hnot, HX. by left.
  - unfold findDescendantFolders. simpl.
    rewrite (findMany_after_delete X s s' F Hw); [done|]. by intros x ?%HX.
Qed.

(** Deleting Docs from the demo store, under the schema that enforces
    every reference. *)
Lemma deleteFolder_removes_subtree_witness :
  ∃ s', deleteFolder strict 5 2 demo = Some (Returned (), s') ∧
    folders s' = [mkFolder 1 "Home" 1 None; mkFolder 4 "Home" 2 None] ∧
    files s' = [] ∧ shareLinks s' = [] ∧
    journal s' = [WDeleteFiles 2; WDeleteFiles 3; WDeleteShareLinks 3;
                  WDeleteFolder 3; WDeleteShareLinks 2; WDeleteFolder 2].
Proof.
  destruct (deleteFolder_removes_subtree strict demo 2 5)
    as (s' & X & tr & Hrun & _).
  - unfold unique_ids. simpl. compute_done.
  - reflexivity.
  - apply acyclic_bounded, parents_first_acyclic. reflexivity.
  - exists s'. split; [exact Hrun|].
    vm_compute in Hrun. injection Hrun as <-. by split_and!.
Defined.

(** ** More nested calls than needed

    A result that is reached with some number of nested calls is the result
    with every larger number. *)

Lemma findChildren_step_fuel fuel s p acc r :
  findChildren fuel s p acc = Some r → findChildren (S fuel) s p acc = Some r.
Proof.
  revert p acc r. induction fuel as [|fuel IH]; intros p acc r; [done|].
  rewrite (findChildren_S (S fuel)), (findChildren_S fuel).
  induction (Prisma.folder_findMany_parentId s p) as [|sub subs IHs] in acc |- *;
    [done|].
  rewrite !find_loop_cons.
  destruct (findChildren fuel s (folder_id sub) (acc ++ [folder_id sub]))
    as [r1|] eqn:E1; [|by rewrite find_loop_None].
  rewrite (IH _ _ _ E1). apply IHs.
Qed.

Lemma findChildren_more_fuel fuel fuel' s p acc r :
  (fuel ≤ fuel')%nat →
  findChildren fuel s p acc = Some r → findChildren fuel' s p acc = Some r.
Proof.
  induction 1 as [|fuel' _ IH]; [done|].
  intros Hr. by apply findChildren_step_fuel, IH.
Qed.




(** ** The valid move targets *)

(** A path of distinct existing folders below [F], all above [p], cannot be
    longer than the folder table; so where no cycle can be reached from
    [F], the depth below [F] is bounded by the number of folders. *)
Lemma no_cycle_bounded_path s F (path : list Z) p m :
  (∀ x, in_subtree s F x → ¬ descendant s x x) →
  in_subtree s F p →
  NoDup path →
  (∀ y, y ∈ path → y ∈ folder_id <$> folders s) →
  (∀ y, y ∈ path → in_subtree s y p) →
  (length (folders s) ≤ length path + m)%nat →
  bounded s (S m) p.
Proof.
  intros Hac. revert path p.
  induction m as [|m IH]; intros path p HFp Hnd Hin Hup Hlen;
    constructor; intros c Hc;
    (assert (in_subtree s F c) as HFc by (right; by eapply in_subtree_step));
    (assert (c ∉ path) as Hc'
       by (intros Hcp; apply (Hac c HFc);
           eapply in_subtree_step; [by apply Hup|done]));
    (assert (c ∈ folder_id <$> folders s) as Hce
       by (destruct Hc as (f & Hf & <- & _); by apply list_elem_of_fmap_2)).
  - exfalso.
    assert (length (c :: path) ≤ length (folder_id <$> folders s))%nat as Hle.
    { apply submseteq_length, NoDup_submseteq; [by constructor|].
      intros y [->|Hy]%elem_of_cons; [done|by apply Hin]. }
    rewrite length_fmap in Hle. simpl in Hle. lia.
  - apply (IH (c :: path)); [done|by constructor|..].
    + intros y [->|Hy]%elem_of_cons; [done|by apply Hin].
    + intros y [->|Hy]%elem_of_cons; [by left|].
      right. eapply in_subtree_step; [by apply Hup|done].
    + simpl. lia.
Qed.

Lemma no_cycle_bounded s F :
  (∀ x, in_subtree s F x → ¬ descendant s x x) →
  bounded s (S (length (folders s))) F.
Proof.
  intros Hac. apply (no_cycle_bounded_path s F [] F); [done|by left|constructor|..].
  - by intros y Hy%elem_of_nil.
  - by intros y Hy%elem_of_nil.
  - simpl. lia.
Qed.

(** What [findParentFolders] returns, when it returns. *)
Lemma findParentFolders_result fuel s U F targets :
  findParentFolders fuel s U F = Some targets →
  (∃ ds, findDescendantFolders fuel s F = Some ds ∧
     targets
     = filter (λ G, folder_userId G = U ∧ folder_id G ∉ ds ++ [F]) (folders s)) ∧
  ∀ G, G ∈ targets ↔
       G ∈ folders s ∧ folder_userId G = U ∧
       folder_id G ≠ F ∧ ¬ descendant s F (folder_id G).
Proof.
  unfold findParentFolders. intros Hr.
  destruct (findDescendantFolders fuel s F) as [ds|] eqn:Hds; simplify_eq/=.
  split; [by exists ds|].
  unfold findDescendantFolders in Hds.
  destruct (findChildren_pushes _ _ _ _ _ Hds) as (new & -> & Hnew). simpl.
  intros G. unfold Prisma.folder_findMany_userId_notIn.
  rewrite list_elem_of_filter, elem_of_app, list_elem_of_singleton, Hnew.
  naive_solver.
Qed.

(** The store after [updateFolder(2, 'Docs', 3)] on the demo store. *)
Lemma demo_moved_below_itself :
  ∃ f',
    updateFolder strict 2 "Docs" (Some 3) demo
    = Some (Returned f',
            Prisma.log (WUpdateFolder 2)
              (Prisma.set_folders
                 [mkFolder 1 "Home" 1 None; mkFolder 2 "Docs" 1 (Some 3);
                  mkFolder 3 "Reports" 1 (Some 2); mkFolder 4 "Home" 2 None]
                 demo)).
Proof. by eexists. Qed.

(** C5, as stated, fails.  [updateFolder(2, 'Docs', 3)] returns on the demo
    store and leaves Docs (2) and Reports (3) below each other.  From then
    on [findParentFolders(1, 2)] does not return, although the set the claim
    gives for it is well defined: Home (1) is a folder of user 1 that is
    neither folder 2 nor one of its descendants. *)
Lemma findParentFolders_never_returns_below_a_cycle :
  ∃ f' s',
    updateFolder strict 2 "Docs" (Some 3) demo = Some (Returned f', s') ∧
    (∀ fuel, findParentFolders fuel s' 1 2 = None) ∧
    ∃ G, G ∈ folders s' ∧ folder_userId G = 1 ∧ folder_id G ≠ 2 ∧
         ¬ descendant s' 2 (folder_id G).
Proof.
  destruct demo_moved_below_itself as (f' & Hrun).
  eexists f', _. split; [exact Hrun|].
  match goal with |- (∀ fuel, findParentFolders fuel ?s _ _ = _) ∧ _ =>
    set (s' := s) end.
  assert (Hc : ∀ a b, child_of s' a b → (a = 3 ∧ b = 2) ∨ (a = 2 ∧ b = 3)).
  { intros a b (f & Hf & <- & Hp). simpl in Hf.
    repeat (apply elem_of_cons in Hf as [->|Hf]; [simplify_eq/=; auto|]).
    by apply elem_of_nil in Hf. }
  split.
  - intros fuel. unfold findParentFolders.
    destruct (findDescendantFolders fuel s' 2) as [ds|] eqn:E; [|done].
    exfalso. unfold findDescendantFolders in E.
    apply (bounded_irreflexive s' fuel 2).
    + apply (findChildren_returns fuel s' 2 []). by rewrite E.
    + apply (tc_l _ _ 3); [|apply tc_once]; unfold child_of.
      * exists (mkFolder 3 "Reports" 1 (Some 2)). simpl. set_solver.
      * exists (mkFolder 2 "Docs" 1 (Some 3)). simpl. set_solver.
  - exists (mkFolder 1 "Home" 1 None). split_and!; [simpl; set_solver|done..|].
    simpl. intros Hd.
    assert (∀ a b, descendant s' a b → b = 2 ∨ b = 3) as Hends.
    { induction 1 as [a b H|a c b H _ IH]; [|done].
      apply Hc in H. lia. }
    apply Hends in Hd. lia.
Qed.

(** C5, amended: [findParentFolders] returns exactly when no cycle can be
    reached from the folder, as in every store without cycles; then it
    returns the folders of the user that are neither the folder nor one of
    its descendants.  When a folder on a cycle is the folder or lies below
    it, the call does not return. *)
Theorem findParentFolders_valid_targets (s : Store) (U F : Z) :
  ((∀ x, in_subtree s F x → ¬ descendant s x x) →
     ∃ targets,
       (∀ fuel, (length (folders s) < fuel)%nat →
          findParentFolders fuel s U F = Some targets) ∧
       ∀ G, G ∈ targets ↔
            G ∈ folders s ∧ folder_userId G = U ∧
            folder_id G ≠ F ∧ ¬ descendant s F (folder_id G)) ∧
  (∀ x, in_subtree s F x → descendant s x x →
     ∀ fuel, findParentFolders fuel s U F = None) ∧
  (∀ fuel targets, findParentFolders fuel s U F = Some targets →
     (∃ ds, findDescendantFolders fuel s F = Some ds ∧
        targets
        = filter (λ G, folder_userId G = U ∧ folder_id G ∉ ds ++ [F]) (folders s)) ∧
     ∀ G, G ∈ targets ↔
          G ∈ folders s ∧ folder_userId G = U ∧
          folder_id G ≠ F ∧ ¬ descendant s F (folder_id G)).
Proof.
  split_and!.
  - intros Hno.
    destruct (proj2 (findChildren_returns (S (length (folders s))) s F []))
      as [ds Hds]; [by apply no_cycle_bounded|].
    assert (∀ fuel, (length (folders s) < fuel)%nat →
              findParentFolders fuel s U F
              = Some (Prisma.folder_findMany_userId_notIn s U (ds ++ [F]))) as Hall.
    { intros fuel Hfuel. unfold findParentFolders, findDescendantFolders.
      rewrite (findChildren_more_fuel (S (length (folders s))) fuel s F [] ds);
        [done|lia|done]. }
    eexists. split; [exact Hall|].
    apply (findParentFolders_result (S (length (folders s))) s U F).
    apply Hall. lia.
  - intros x Hx Hcyc fuel. unfold findParentFolders.
    destruct (findDescendantFolders fuel s F) as [ds|] eqn:E; [|done].
    exfalso. apply (bounded_no_cycle s fuel F x); [|done..].
    apply (findChildren_returns fuel s F []).
    unfold findDescendantFolders in E. by rewrite E.
  - intros fuel targets. apply findParentFolders_result.
Qed.

(** The folders user 1 can move Docs into, in the demo store. *)
Lemma findParentFolders_valid_targets_witness :
  ∃ targets,
    (∀ fuel, (4 < fuel)%nat → findParentFolders fuel demo 1 2 = Some targets) ∧
    targets = [mkFolder 1 "Home" 1 None] ∧
    ∀ G, G ∈ targets ↔
         G ∈ folders demo ∧ folder_userId G = 1 ∧
         folder_id G ≠ 2 ∧ ¬ descendant demo 2 (folder_id G).
Proof.
  destruct (findParentFolders_valid_targets demo 1 2) as (Hret & _ & _).
  destruct Hret as (targets & Hall & Hiff).
  - intros x _. apply parents_first_acyclic. reflexivity.
  - exists targets. split; [exact Hall|]. split; [|exact Hiff].
    specialize (Hall 5%nat ltac:(simpl; lia)). vm_compute in Hall. congruence.
Defined.

(** ** A line of nested folders *)










(** * More of the query module *)

(** ** Users *)

Lemma find_first_app_new {A} (P : A → Prop) `{!∀ x, Decision (P x)}
    (l : list A) (x : A) :
  (∀ y, y ∈ l → ¬ P y) → P x → snd <$> list_find P (l ++ [x]) = Some x.
Proof.
  intros Hl Hx. induction l as [|y l IH]; csimpl.
  - by rewrite decide_True.
  - rewrite decide_False by (apply Hl; by left).
    rewrite <- option_fmap_compose.
    rewrite <- IH; [|intros z Hz; apply Hl; by right].
    by destruct (list_find P (l ++ [x])) as [[??]|].
Qed.

Lemma find_first_app_old {A} (P : A → Prop) `{!∀ x, Decision (P x)}
    (l k : list A) :
  is_Some (snd <$> list_find P l) →
  snd <$> list_find P (l ++ k) = snd <$> list_find P l.
Proof.
  induction l as [|y l IH]; csimpl; [by intros [? ?]|].
  case_decide; [done|]. rewrite <- !option_fmap_compose. intros Hs.
  assert (is_Some (snd <$> list_find P l)) as Hs'.
  { destruct (list_find P l) as [[??]|]; [by eexists|by destruct Hs]. }
  specialize (IH Hs').
  destruct (list_find P (l ++ k)) as [[??]|], (list_find P l) as [[??]|];
    simplify_eq/=; done.
Qed.

Lemma find_first_app_miss {A} (P : A → Prop) `{!∀ x, Decision (P x)}
    (l : list A) (x : A) :
  ¬ P x → snd <$> list_find P (l ++ [x]) = snd <$> list_find P l.
Proof.
  intros Hx. induction l as [|y l IH]; csimpl.
  - by rewrite decide_False.
  - case_decide; [done|]. rewrite <- !option_fmap_compose.
    destruct (list_find P (l ++ [x])) as [[??]|], (list_find P l) as [[??]|];
      simplify_eq/=; done.
Qed.

Lemma checkUsernameExists_true s username :
  checkUsernameExists s username = true ↔ username ∈ user_username <$> users s.
Proof.
  unfold checkUsernameExists, Prisma.user_findUnique_username.
  set (P := λ u, user_username u = username).
  destruct (snd <$> list_find P (users s)) as [u|] eqn:E; simpl.
  - apply (find_first_Some P) in E as [Hu Hn]. split; [|done].
    intros _. rewrite <- Hn. by apply list_elem_of_fmap_2.
  - split; [done|]. intros (u & -> & Hu)%list_elem_of_fmap.
    rewrite (find_first_None P) in E. by destruct (E u Hu).
Qed.

Lemma createUser_cases fn ln un pw s :
  createUser fn ln un pw s =
    if checkUsernameExists s un
    then Some (Thrown UniqueConstraintFailed, s)
    else Some (Returned (mkUser (nextUserId s) fn ln un pw),
               Prisma.log (WCreateUser (nextUserId s))
                 (mkStore (users s ++ [mkUser (nextUserId s) fn ln un pw])
                    (folders s) (files s) (shareLinks s)
                    (nextUserId s + 1) (nextFolderId s) (nextFileId s)
                    (nextShareLinkId s) (journal s))).
Proof.
  run_db. unfold Prisma.user_create.
  destruct (checkUsernameExists s un) eqn:E.
  - apply checkUsernameExists_true in E. by rewrite bool_decide_eq_true_2.
  - rewrite bool_decide_eq_false_2; [done|].
    intros H%checkUsernameExists_true. congruence.
Qed.

(** X1: createUser succeeds exactly on a free username; then both lookups find
    the new row. *)
Theorem createUser_then_lookup
    (s : Store) (firstName lastName username password : string) :
  (∀ u, u ∈ users s → user_id u < nextUserId s) →
  (checkUsernameExists s username = true →
     createUser firstName lastName username password s
       = Some (Thrown UniqueConstraintFailed, s)) ∧
  (checkUsernameExists s username = false →
     ∃ u s', createUser firstName lastName username password s
               = Some (Returned u, s') ∧
       u = mkUser (nextUserId s) firstName lastName username password ∧
       users s' = users s ++ [u] ∧
       checkUsernameExists s' username = true ∧
       findUser s' "username" (JsString username) = UserResult (Some u) ∧
       findUser s' "id" (JsNumber (user_id u)) = UserResult (Some u) ∧
       (∀ other, other ≠ username →
          checkUsernameExists s' other = checkUsernameExists s other)).
Proof.
  intros Hbelow. rewrite createUser_cases. split; intros E; rewrite E; [done|].
  eexists _, _. split; [done|]. split; [done|]. simpl. split; [done|].
  assert (Hfree : ∀ y, y ∈ users s → user_username y ≠ username).
  { intros y Hy Heq. apply not_true_iff_false in E. apply E.
    apply checkUsernameExists_true. rewrite <- Heq. by apply list_elem_of_fmap_2. }
  split_and!.
  - apply checkUsernameExists_true. simpl. rewrite fmap_app. set_solver.
  - unfold findUser. simpl. f_equal.
    unfold Prisma.user_findUnique_username. simpl.
    by apply (find_first_app_new (λ u, user_username u = username)).
  - unfold findUser. simpl. f_equal.
    unfold Prisma.user_findUnique_id. simpl.
    apply (find_first_app_new (λ u, user_id u = nextUserId s)); [|done].
    intros y Hy Heq. specialize (Hbelow y Hy). lia.
  - intros other Hne. unfold checkUsernameExists, Prisma.user_findUnique_username.
    simpl. f_equal.
    apply (find_first_app_miss (λ u, user_username u = other)). simpl. congruence.
Qed.

Lemma find_first_unique {A} (P : A → Prop) `{!∀ x, Decision (P x)}
    {B} (key : A → B) (l : list A) (x : A) :
  NoDup (key <$> l) → (∀ y, P y ↔ key y = key x) → x ∈ l →
  snd <$> list_find P l = Some x.
Proof.
  intros Hnd HP Hx.
  destruct (find_first_is_Some P l x Hx) as [y Hy]; [by apply HP|].
  rewrite Hy. f_equal. apply (find_first_Some P) in Hy as [Hy HPy].
  apply (NoDup_fmap_elem_eq key l); [done..|]. by apply HP.
Qed.

(** X2: in a store with unique ids and usernames the two lookups agree. *)
Theorem findUser_keys_agree (s : Store) (u : User) :
  wf_store s →
  (findUser s "username" (JsString (user_username u)) = UserResult (Some u)
   ↔ u ∈ users s) ∧
  (findUser s "id" (JsNumber (user_id u)) = UserResult (Some u) ↔ u ∈ users s) ∧
  (∀ method value,
     method ≠ "username" → method ≠ "id" → findUser s method value = InvalidMethod).
Proof.
  intros (Hu & _ & _ & _ & Hn). destruct Hu as [Hid _]. split_and!.
  - unfold findUser. simpl. split.
    + intros [= H]. by apply (find_first_Some (λ x, user_username x = user_username u)) in H as [? _].
    + intros Hin. f_equal.
      by apply (find_first_unique _ user_username).
  - unfold findUser. simpl. split.
    + intros [= H]. by apply (find_first_Some (λ x, user_id x = user_id u)) in H as [? _].
    + intros Hin. f_equal. by apply (find_first_unique _ user_id).
  - intros method value H1 H2. unfold findUser.
    by rewrite !decide_False.
Qed.

(** ** Keys stay unique and below the counters *)

Lemma keys_below_app {A} (key : A → Z) rows next (row : A) :
  keys_below key rows next → key row = next →
  keys_below key (rows ++ [row]) (next + 1).
Proof.
  intros [Hnd Hlt] Hk. split.
  - rewrite fmap_app. apply NoDup_app. split_and!; [done| |apply NoDup_singleton].
    intros x (r & -> & Hr)%list_elem_of_fmap. simpl.
    rewrite list_elem_of_singleton. specialize (Hlt r Hr). lia.
  - intros r [Hr| ->%list_elem_of_singleton]%elem_of_app; [|lia].
    specialize (Hlt r Hr). lia.
Qed.

Lemma keys_below_sublist {A} (key : A → Z) rows rows' next :
  keys_below key rows next → rows' `sublist_of` rows →
  keys_below key rows' next.
Proof.
  intros [Hnd Hlt] Hsub. split.
  - eapply sublist_NoDup; [exact Hnd|]. by apply fmap_sublist.
  - intros r Hr. apply Hlt. by eapply elem_of_sublist.
Qed.

Lemma keys_below_update (rows : list Folder) next F row :
  keys_below folder_id rows next → folder_id row = F →
  keys_below folder_id
    ((λ f, if decide (folder_id f = F) then row else f) <$> rows) next.
Proof.
  intros [Hnd Hlt] Hid.
  assert (folder_id <$> ((λ f, if decide (folder_id f = F) then row else f) <$> rows)
          = folder_id <$> rows) as Heq.
  { rewrite <- list_fmap_compose. apply list_fmap_ext. intros i f _. simpl.
    case_decide; congruence. }
  split; [by rewrite Heq|].
  intros r (f & -> & Hf)%list_elem_of_fmap. specialize (Hlt f Hf).
  case_decide; [|done]. subst. lia.
Qed.

Lemma shrinks_wf s s' : shrinks s s' → wf_store s → wf_store s'.
Proof.
  intros (Hu&Hf&Hx&Hl&Hnu&Hnf&Hnx&Hnl) (H1&H2&H3&H4&H5).
  unfold wf_store. rewrite Hu, Hnu, Hnf, Hnx, Hnl.
  split_and!; try done; by eapply keys_below_sublist.
Qed.

Lemma run_op_wf sch op s s' : wf_store s → run_op sch op s = Some s' → wf_store s'.
Proof.
  intros Hwf. pose proof Hwf as (Hu & Hf & Hx & Hl & Hn).
  destruct op as [fn ln un pw|U|n U p|n pa F sz|F n p|F|F e];
    [simpl|simpl|simpl|simpl|simpl|cbn [run_op]|simpl].
  - rewrite createUser_cases.
    destruct (checkUsernameExists s un) eqn:E; intros [= <-]; [done|].
    unfold wf_store. simpl. split_and!; try done.
    + by apply keys_below_app.
    + rewrite fmap_app. apply NoDup_app. split_and!; [done| |apply NoDup_singleton].
      intros x Hin. simpl. rewrite list_elem_of_singleton. intros ->.
      apply checkUsernameExists_true in Hin. congruence.
  - pose proof (createFolder_cases sch "Home" U None s) as Hc. cbv zeta in Hc.
    unfold createHomeFolder. unfold createFolder in Hc.
    destruct Hc as [[-> _]|[[e ->] _]]; intros [= <-]; [|done].
    unfold wf_store. simpl. split_and!; try done. by apply keys_below_app.
  - pose proof (createFolder_cases sch n U p s) as Hc. cbv zeta in Hc.
    destruct Hc as [[-> _]|[[e ->] _]]; intros [= <-]; [|done].
    unfold wf_store. simpl. split_and!; try done. by apply keys_below_app.
  - run_db. unfold Prisma.file_create.
    destruct (Prisma.file_violation _ _ _); intros [= <-]; [done|].
    unfold wf_store. simpl. split_and!; try done. by apply keys_below_app.
  - pose proof (updateFolder_cases sch F n p s) as Hc.
    destruct (Prisma.folder_findUnique s F) as [old|]; [|rewrite Hc; by intros [= <-]].
    cbv zeta in Hc. destruct (Prisma.folder_violation _ _ _ _);
      rewrite Hc; intros [= <-]; [done|].
    unfold wf_store. simpl. split_and!; try done. by apply keys_below_update.
  - unfold state_after.
    destruct (deleteFolder sch (S (length (folders s))) F s) as [[r s1]|] eqn:E;
      [|by cbn].
    cbn. intros [= <-]. eapply shrinks_wf; [|done]. by eapply deleteFolder_shrinks.
  - rewrite createShareLink_cases.
    destruct (foreign_keys sch && negb (Prisma.folder_exists s F));
      intros [= <-]; [done|].
    unfold wf_store. simpl. split_and!; try done. by apply keys_below_app.
Qed.

(** X3: every sequence of calls keeps the ids of each table, and the usernames,
    unique, and the ids below the counters. *)
Theorem run_ops_wf (sch : Schema) (ops : list Op) (s s' : Store) :
  wf_store s → run_ops sch ops s = Some s' → wf_store s'.
Proof.
  unfold run_ops. revert s. induction ops as [|op ops IH]; intros s Hwf; simpl.
  - by intros [= <-].
  - destruct (run_op sch op s) as [s1|] eqn:E.
    + apply IH. by eapply run_op_wf.
    + intros H. exfalso. clear -H. induction ops; simpl in *; [done|auto].
Qed.

(** ** Moves and cycles *)

Lemma updateFolder_folders sch F n p s f' s' :
  updateFolder sch F n p s = Some (Returned f', s') →
  folders s' = (λ f, if decide (folder_id f = F) then f' else f) <$> folders s ∧
  folder_id f' = F ∧ folder_parentId f' = or_null p ∧
  ∃ old, old ∈ folders s ∧ folder_id old = F ∧ folder_userId f' = folder_userId old.
Proof.
  pose proof (updateFolder_cases sch F n p s) as Hc.
  destruct (Prisma.folder_findUnique s F) as [old|] eqn:Hold;
    [|rewrite Hc; by intros [=]].
  cbv zeta in Hc. destruct (Prisma.folder_violation _ _ _ _);
    rewrite Hc; intros [= <- <-]; simpl.
  split_and!; try done. apply folder_findUnique_Some in Hold as [? ?].
  by exists old.
Qed.

Lemma child_of_after_update sch F n p s f' s' x y :
  updateFolder sch F n p s = Some (Returned f', s') →
  child_of s' x y ↔ (y ≠ F ∧ child_of s x y) ∨ (y = F ∧ or_null p = Some x).
Proof.
  intros (Hf & Hid & Hp & old & Hold & Hoid & _)%updateFolder_folders.
  unfold child_of. rewrite Hf. setoid_rewrite list_elem_of_fmap. split.
  - intros (g & (f & -> & Hin) & Hgid & Hgp). case_decide.
    + right. split; [congruence|]. congruence.
    + left. split; [congruence|]. by exists f.
  - intros [(Hne & f & Hin & Hfid & Hfp)|(-> & Hq)].
    + exists f. split_and!; try done. exists f. rewrite decide_False; [done|congruence].
    + exists f'. split_and!; [|done|congruence].
      exists old. by rewrite decide_True.
Qed.

(** Where the new edge can lead: a path of the new store is a path of the
    old one, or it runs from above the new parent to below the folder. *)
Lemma descendant_after_update sch F n p s f' s' x y :
  updateFolder sch F n p s = Some (Returned f', s') →
  descendant s' x y →
  descendant s x y ∨
  ∃ P, or_null p = Some P ∧ in_subtree s x P ∧ in_subtree s F y.
Proof.
  intros Hrun. induction 1 as [x y Hc|x c y Hc _ IH].
  - apply (child_of_after_update _ _ _ _ _ _ _ _ _ Hrun) in Hc
      as [[_ Hc]|[-> Hq]].
    + left. by apply tc_once.
    + right. exists x. split_and!; [done|by left|by left].
  - apply (child_of_after_update _ _ _ _ _ _ _ _ _ Hrun) in Hc
      as [[_ Hc]|[-> Hq]].
    + destruct IH as [IH|(P & Hq & HcP & HFy)].
      * left. by eapply tc_l.
      * right. exists P. split_and!; [done| |done]. right.
        destruct HcP as [->|HcP]; [by apply tc_once|by eapply tc_l].
    + right. exists x. split_and!; [done|by left|].
      destruct IH as [IH|(P & _ & _ & HFy)]; [by right|done].
Qed.

Lemma in_subtree_trans s a b c :
  in_subtree s a b → in_subtree s b c → in_subtree s a c.
Proof.
  intros [->|H1] [->|H2]; [by left|by right|by right|].
  right. by etrans.
Qed.

(** A move to no parent, or to a parent that is neither the folder nor
    below it, creates no cycle. *)
Lemma updateFolder_keeps_acyclic sch F n p s f' s' :
  acyclic s →
  (∀ P, or_null p = Some P → ¬ in_subtree s F P) →
  updateFolder sch F n p s = Some (Returned f', s') →
  acyclic s'.
Proof.
  intros Hac Hsafe Hrun x Hx.
  destruct (descendant_after_update _ _ _ _ _ _ _ _ _ Hrun Hx)
    as [Hold|(P & Hq & HxP & HFx)].
  - by apply (Hac x).
  - apply (Hsafe P Hq). by eapply in_subtree_trans.
Qed.

Lemma findParentFolders_not_below fuel s U F targets G :
  findParentFolders fuel s U F = Some targets → G ∈ targets →
  ¬ in_subtree s F (folder_id G).
Proof.
  unfold findParentFolders, findDescendantFolders. intros Hr HG.
  destruct (findChildren fuel s F []) as [ds|] eqn:E; simplify_eq/=.
  destruct (findChildren_pushes _ _ _ _ _ E) as (new & -> & Hnew). simpl in *.
  apply list_elem_of_filter in HG as [[_ Hnot] _].
  intros [Heq|Hd]; apply Hnot, elem_of_app.
  - right. rewrite Heq. by left.
  - left. by apply Hnew.
Qed.

(** X4: moving a folder under one of the folders [findParentFolders] offers
    keeps the tree free of cycles. *)
Theorem updateFolder_valid_target_acyclic
    (sch : Schema) (fuel : nat) (s s' : Store) (U F : Z) (n : string)
    (targets : list Folder) (G f' : Folder) :
  acyclic s →
  findParentFolders fuel s U F = Some targets → G ∈ targets →
  updateFolder sch F n (Some (folder_id G)) s = Some (Returned f', s') →
  acyclic s' ∧
  ∀ fuel', (length (folders s') < fuel')%nat →
    is_Some (findParentFolders fuel' s' U F).
Proof.
  intros Hac Ht HG Hrun.
  assert (acyclic s') as Hac'.
  { eapply updateFolder_keeps_acyclic; [done| |done].
    intros P HP Hin. apply (findParentFolders_not_below _ _ _ _ _ _ Ht HG).
    destruct (folder_id G) as [|g|g]; simplify_eq/=; done. }
  split; [done|]. intros fuel' Hfuel.
  destruct (findDescendantFolders_result s' F fuel' Hac' Hfuel) as (ds & Hds & _).
  unfold findParentFolders. rewrite Hds. by eexists.
Qed.

(** X5: moving a folder under itself or under one of its descendants makes it
    its own descendant, and the descendant walk from it returns no more. *)
Theorem updateFolder_into_subtree_cycles
    (sch : Schema) (s s' : Store) (F P : Z) (n : string) (f' : Folder) :
  P ≠ 0 → in_subtree s F P →
  updateFolder sch F n (Some P) s = Some (Returned f', s') →
  descendant s' F F ∧ ¬ acyclic s' ∧
  ∀ fuel U, findDescendantFolders fuel s' F = None ∧
            findParentFolders fuel s' U F = None.
Proof.
  intros HP Hin Hrun.
  assert (Hedge : child_of s' P F).
  { apply (child_of_after_update _ _ _ _ _ _ _ _ _ Hrun). right.
    split; [done|]. by apply or_null_Some. }
  assert (Hcyc : descendant s' F F).
  { destruct Hin as [->|Hd]; [by apply tc_once|].
    eapply tc_r; [|exact Hedge].
    assert (∀ x, descendant s x P → descendant s' x P ∨ descendant s' F P) as Hpath.
    { clear Hd. intros x Hd.
      induction Hd as [x y Hc|x c y Hc _ IH].
      - destruct (decide (y = F)) as [->|Hne].
        + right. by apply tc_once.
        + left. apply tc_once.
          apply (child_of_after_update _ _ _ _ _ _ _ _ _ Hrun). by left.
      - destruct (decide (c = F)) as [->|Hne].
        + right. by destruct (IH HP Hrun Hedge).
        + destruct (IH HP Hrun Hedge) as [IH'|IH']; [|by right]. left.
          eapply tc_l; [|exact IH'].
          apply (child_of_after_update _ _ _ _ _ _ _ _ _ Hrun). by left. }
    by destruct (Hpath F Hd). }
  split; [done|]. split; [by intros Hac; apply (Hac F)|].
  intros fuel U.
  assert (findDescendantFolders fuel s' F = None) as Hnone.
  { destruct (findDescendantFolders fuel s' F) as [ds|] eqn:E; [|done].
    exfalso. unfold findDescendantFolders in E.
    assert (bounded s' fuel F) as Hb by (apply (findChildren_returns fuel s' F []); by rewrite E).
    by apply (bounded_irreflexive s' fuel F). }
  split; [done|]. unfold findParentFolders. by rewrite Hnone.
Qed.

(** ** What a deletion can touch *)

Lemma removed_within_refl F s : removed_within F s s.
Proof. unfold removed_within. naive_solver. Qed.

Lemma removed_within_trans F c s u u' :
  folders u ⊆ folders s → in_subtree s F c →
  removed_within F s u → removed_within c u u' → removed_within F s u'.
Proof.
  intros Hsub Hc (H1 & H2 & H3) (H1' & H2' & H3').
  assert (∀ z, in_subtree u c z → in_subtree s F z) as Hup.
  { intros z Hz. eapply in_subtree_trans; [exact Hc|]. by eapply in_subtree_mono. }
  split_and!.
  - intros f Hf Hnot. destruct (decide (f ∈ folders u)); [|by apply H1].
    apply Hup. by apply H1'.
  - intros x Hx Hnot. destruct (decide (x ∈ files u)); [|by apply H2].
    apply Hup. by apply H2'.
  - intros l Hl Hnot. destruct (decide (l ∈ shareLinks u)); [|by apply H3].
    apply Hup. by apply H3'.
Qed.

Lemma deleteFolder_within sch fuel F s r s' :
  deleteFolder sch fuel F s = Some (r, s') → removed_within F s s'.
Proof.
  revert F s r s'. induction fuel as [|fuel IH]; intros F s r s'; [done|].
  rewrite deleteFolder_S.
  set (s1 := after_files F s).
  assert (H01 : removed_within F s s1).
  { split_and!; simpl; try done.
    intros x Hx Hnot. left. destruct (decide (file_folderId x = F)); [done|].
    exfalso. apply Hnot. by apply list_elem_of_filter. }
  assert (Hloop : ∀ subs u r' u',
    (∀ f, f ∈ subs → child_of s F (folder_id f)) →
    folders u ⊆ folders s → removed_within F s u →
    for_each (λ subfolder, deleteFolder sch fuel (folder_id subfolder)) subs u
      = Some (r', u') →
    folders u' ⊆ folders s ∧ removed_within F s u').
  { induction subs as [|sub subs IHs]; intros u r' u' Hch Hsub Hw.
    - by intros [= <- <-].
    - rewrite for_each_cons.
      destruct (deleteFolder sch fuel (folder_id sub) u) as [[ro u1]|] eqn:E;
        [|done].
      assert (folders u1 ⊆ folders s ∧ removed_within F s u1) as [Hsub1 Hw1].
      { split.
        - etrans; [|exact Hsub]. eapply shrinks_subseteq, deleteFolder_shrinks, E.
        - eapply removed_within_trans; [done| |done|by eapply IH].
          right. apply tc_once. apply Hch. by left. }
      destruct ro as [[]|e]; [|by intros [= <- <-]].
      apply IHs; [|done..]. intros f Hf. apply Hch. by right. }
  destruct (for_each _ _ _) as [[ro s2]|] eqn:E; [|done].
  apply Hloop in E as [Hsub2 Hw2]; [| |done|done]; last first.
  { intros f Hf. apply child_of_findMany. by exists f. }
  destruct ro as [[]|e]; [|by intros [= <- <-]].
  assert (H23 : removed_within F s (after_links F s2)).
  { destruct Hw2 as (H1 & H2 & H3). split_and!; simpl; try done.
    intros l Hl Hnot. destruct (decide (l ∈ shareLinks s2)); [|by apply H3].
    left. destruct (decide (link_folderId l = F)); [done|].
    exfalso. apply Hnot. by apply list_elem_of_filter. }
  assert (Hfin : ∀ ro' s4, Prisma.folder_delete sch F (after_links F s2) = Some (ro', s4) →
                  removed_within F s s4).
  { unfold Prisma.folder_delete. intros ro' s4.
    destruct (Prisma.folder_findUnique _ F) as [old|]; [|by intros [= <- <-]].
    destruct (foreign_keys sch && _); intros [= <- <-]; [done|].
    destruct H23 as (H1 & H2 & H3). split_and!; simpl in *; try done.
    intros f Hf Hnot. destruct (decide (f ∈ folders s2)); [|by apply H1].
    left. destruct (decide (folder_id f = F)); [done|].
    exfalso. apply Hnot. by apply list_elem_of_filter. }
  destruct (Prisma.folder_delete sch F (after_links F s2)) as [[[?|?] s4]|] eqn:Ed;
    [| |done]; intros [= <- <-]; by eapply Hfin.
Qed.

(** X7: whatever its outcome, also when it throws half way, [deleteFolder] adds
    and changes nothing, and what it removed lies in the subtree. *)
Theorem deleteFolder_contained
    (sch : Schema) (fuel : nat) (F : Z) (s s' : Store) (r : Outcome ()) :
  deleteFolder sch fuel F s = Some (r, s') →
  users s' = users s ∧
  folders s' `sublist_of` folders s ∧
  files s' `sublist_of` files s ∧
  shareLinks s' `sublist_of` shareLinks s ∧
  (∀ f, f ∈ folders s → f ∉ folders s' → in_subtree s F (folder_id f)) ∧
  (∀ x, x ∈ files s → x ∉ files s' → in_subtree s F (file_folderId x)) ∧
  (∀ l, l ∈ shareLinks s → l ∉ shareLinks s' → in_subtree s F (link_folderId l)).
Proof.
  intros Hrun.
  destruct (deleteFolder_shrinks _ _ _ _ _ _ Hrun) as (?&?&?&?&_).
  destruct (deleteFolder_within _ _ _ _ _ _ Hrun) as (?&?&?).
  by split_and!.
Qed.

Lemma filter_all {A} (P : A → Prop) `{!∀ x, Decision (P x)} (l : list A) :
  (∀ x, x ∈ l → P x) → filter P l = l.
Proof.
  induction l as [|a l IH]; intros Hall; [done|].
  rewrite filter_cons_True by (apply Hall; by left).
  f_equal. apply IH. intros x Hx. apply Hall. by right.
Qed.

Lemma findMany_nil s F :
  Prisma.folder_findMany_parentId s F = [] ↔
  ∀ f, f ∈ folders s → folder_parentId f ≠ Some F.
Proof.
  unfold Prisma.folder_findMany_parentId. split.
  - intros Hnil f Hf Hp.
    assert (f ∈ filter (λ f, folder_parentId f = Some F) (folders s)) as Hin
      by (by apply list_elem_of_filter).
    rewrite Hnil in Hin. by apply elem_of_nil in Hin.
  - intros H. destruct (filter _ _) as [|f l] eqn:E; [done|]. exfalso.
    assert (f ∈ filter (λ f, folder_parentId f = Some F) (folders s)) as Hin
      by (rewrite E; by left).
    apply list_elem_of_filter in Hin as [Hp Hf]. by apply (H f).
Qed.

Lemma deleteFolder_not_found (sch : Schema) (fuel : nat) (F : Z) (s : Store) :
  Prisma.folder_exists s F = false →
  (∀ f, f ∈ folders s → folder_parentId f ≠ Some F) →
  ∃ s', deleteFolder sch (S fuel) F s = Some (Thrown RecordNotFound, s') ∧
    users s' = users s ∧ folders s' = folders s ∧
    files s' = filter (λ x, file_folderId x ≠ F) (files s) ∧
    shareLinks s' = filter (λ l, link_folderId l ≠ F) (shareLinks s) ∧
    journal s' = journal s ++ [WDeleteFiles F; WDeleteShareLinks F].
Proof.
  intros He Hch. rewrite deleteFolder_S.
  assert (Prisma.folder_findMany_parentId (after_files F s) F = []) as ->.
  { by apply findMany_nil. }
  simpl. unfold Prisma.folder_delete.
  assert (Prisma.folder_findUnique
            (after_links F (after_files F s)) F = None) as ->.
  { apply folder_findUnique_None. simpl. intros f Hf Hid.
    apply not_true_iff_false in He. apply He, folder_exists_true. by exists f. }
  eexists. split; [done|]. simpl. split_and!; try done.
  by rewrite <- app_assoc.
Qed.

(** X8: deleting a folder that is not there (and has no rows naming it as
    parent) throws the record-not-found error of [folder.delete]; by then
    the files and share links carrying that folder id were removed. *)
Theorem deleteFolder_missing (sch : Schema) (fuel : nat) (F : Z) (s : Store) :
  Prisma.folder_exists s F = false →
  (∀ f, f ∈ folders s → folder_parentId f ≠ Some F) →
  ∃ s', deleteFolder sch (S fuel) F s = Some (Thrown RecordNotFound, s') ∧
    users s' = users s ∧ folders s' = folders s ∧
    files s' = filter (λ x, file_folderId x ≠ F) (files s) ∧
    shareLinks s' = filter (λ l, link_folderId l ≠ F) (shareLinks s) ∧
    journal s' = journal s ++ [WDeleteFiles F; WDeleteShareLinks F].
Proof. apply deleteFolder_not_found. Qed.

(** X9: a second deletion of the same folder throws and changes no table. *)
Theorem deleteFolder_twice (sch : Schema) (fuel : nat) (F : Z) (s : Store) :
  unique_ids s → Prisma.folder_exists s F = true → bounded s fuel F →
  ∃ s1 s2,
    deleteFolder sch fuel F s = Some (Returned (), s1) ∧
    deleteFolder sch fuel F s1 = Some (Thrown RecordNotFound, s2) ∧
    users s2 = users s1 ∧ folders s2 = folders s1 ∧
    files s2 = files s1 ∧ shareLinks s2 = shareLinks s1.
Proof.
  intros Hu He Hb.
  destruct (deleteFolder_subtree sch fuel s F Hu Hb He)
    as (s1 & X & tr & Hrun & Hw & HX & _).
  destruct fuel as [|fuel]; [by inversion Hb|].
  pose proof Hw as (Hwf & Hwx & Hwl & _).
  assert (HF : F ∈ X) by (apply HX; by left).
  destruct (deleteFolder_not_found sch fuel F s1) as (s2 & Hrun2 & ? & ? & Hx2 & Hl2 & _).
  { apply not_true_iff_false. intros (f & Hf & Hid)%folder_exists_true.
    rewrite Hwf in Hf. apply list_elem_of_filter in Hf as [Hnot _].
    apply Hnot. by rewrite Hid. }
  { apply findMany_nil. apply (findMany_after_delete X s s1 F Hw).
    by intros x ?%HX. }
  exists s1, s2. split_and!; try done.
  - rewrite Hx2. apply filter_all. intros x Hx Heq. rewrite Hwx in Hx.
    apply list_elem_of_filter in Hx as [Hnot _]. apply Hnot. by rewrite Heq.
  - rewrite Hl2. apply filter_all. intros l Hl Heq. rewrite Hwl in Hl.
    apply list_elem_of_filter in Hl as [Hnot _]. apply Hnot. by rewrite Heq.
Qed.

(** ** Leaves, and ids that are not there *)

(** X10: the walk from a folder returns the empty list exactly when no row names
    the folder as its parent, be the folder there or not; then
    [findParentFolders] offers every folder of the user but the folder
    itself. *)
Theorem findParentFolders_no_children (s : Store) (U F : Z) (fuel : nat) :
  (findDescendantFolders (S fuel) s F = Some [] ↔
     ∀ f, f ∈ folders s → folder_parentId f ≠ Some F) ∧
  ((∀ f, f ∈ folders s → folder_parentId f ≠ Some F) →
     findParentFolders (S fuel) s U F =
       Some (filter (λ f, folder_userId f = U ∧ folder_id f ≠ F) (folders s))) ∧
  findDescendantFolders 0 s F = None ∧ findParentFolders 0 s U F = None.
Proof.
  split_and!; try done.
  - rewrite <- findMany_nil. unfold findDescendantFolders. split.
    + intros Hr. destruct (findChildren_pushes _ _ _ _ _ Hr) as (new & Heq & Hnew).
      simpl in Heq. subst new.
      destruct (Prisma.folder_findMany_parentId s F) as [|f l] eqn:E; [done|].
      exfalso. apply (elem_of_nil (folder_id f)), Hnew, tc_once, child_of_findMany.
      exists f. rewrite E. split; [by left|done].
    + intros Hnil. rewrite findChildren_S, Hnil. done.
  - intros Hch. unfold findParentFolders, findDescendantFolders.
    rewrite findChildren_S. rewrite (proj2 (findMany_nil s F) Hch). simpl.
    f_equal. unfold Prisma.folder_findMany_userId_notIn.
    apply list_filter_iff. intros f. rewrite list_elem_of_singleton. tauto.
Qed.

(** ** The order of the descendant walk *)

(** What a call pushes does not depend on what was pushed before it. *)
Lemma findChildren_acc fuel s p acc acc' r :
  findChildren fuel s p acc = Some r →
  ∃ new, r = acc ++ new ∧ findChildren fuel s p acc' = Some (acc' ++ new).
Proof.
  revert p acc acc' r. induction fuel as [|fuel IH]; intros p acc acc' r; [done|].
  rewrite !findChildren_S.
  induction (Prisma.folder_findMany_parentId s p) as [|sub subs IHs]
    in acc, acc', r |- *.
  - intros [= <-]. exists []. by rewrite !app_nil_r.
  - rewrite !find_loop_cons.
    destruct (findChildren fuel s (folder_id sub) (acc ++ [folder_id sub]))
      as [r1|] eqn:E1; [|by rewrite find_loop_None].
    destruct (IH _ _ (acc' ++ [folder_id sub]) _ E1) as (n1 & -> & ->).
    intros (n2 & -> & ->)%(IHs _ ((acc' ++ [folder_id sub]) ++ n1)).
    exists (folder_id sub :: n1 ++ n2). by rewrite <- !app_assoc.
Qed.

Lemma findChildren_from_nil fuel s p acc r :
  findChildren fuel s p acc = Some r →
  ∃ new, r = acc ++ new ∧ findChildren fuel s p [] = Some new.
Proof. intros Hr. apply (findChildren_acc _ _ _ _ [] _ Hr). Qed.

(** The list of a folder is made of one block per subfolder, in the order
    [findMany] gave them: the subfolder, then its own list. *)
Lemma findChildren_blocks fuel s p ds :
  findChildren (S fuel) s p [] = Some ds →
  ∃ blocks, ds = concat blocks ∧
    Forall2
      (λ c b, ∃ dc, findChildren fuel s (folder_id c) [] = Some dc ∧
                    b = folder_id c :: dc)
      (Prisma.folder_findMany_parentId s p) blocks.
Proof.
  rewrite findChildren_S.
  cut (∀ acc r,
    find_loop fuel s (Some acc) (Prisma.folder_findMany_parentId s p) = Some r →
    ∃ blocks, r = acc ++ concat blocks ∧
      Forall2
        (λ c b, ∃ dc, findChildren fuel s (folder_id c) [] = Some dc ∧
                      b = folder_id c :: dc)
        (Prisma.folder_findMany_parentId s p) blocks).
  { intros H Hr. by apply (H []) in Hr. }
  induction (Prisma.folder_findMany_parentId s p) as [|sub subs IHs];
    intros acc r.
  - intros [= <-]. exists []. rewrite app_nil_r. by split; [|constructor].
  - rewrite find_loop_cons.
    destruct (findChildren fuel s (folder_id sub) (acc ++ [folder_id sub]))
      as [r1|] eqn:E1; [|by rewrite find_loop_None].
    apply findChildren_from_nil in E1 as (n1 & -> & Hn1).
    intros (blocks & -> & Hblocks)%IHs.
    exists ((folder_id sub :: n1) :: blocks). split.
    + simpl. by rewrite <- !app_assoc.
    + constructor; [by exists n1|done].
Qed.

(** Every entry of the list is followed at once by its own list. *)
Lemma findChildren_subtree_block fuel s p ds d :
  findChildren fuel s p [] = Some ds → d ∈ ds →
  ∃ l1 l2 dd, findChildren fuel s d [] = Some dd ∧ ds = l1 ++ d :: dd ++ l2.
Proof.
  revert p ds d. induction fuel as [|fuel IH]; intros p ds d; [done|].
  intros (blocks & -> & Hblocks)%findChildren_blocks.
  induction Hblocks as [|c b subs blocks (dc & Hdc & ->) _ IHb];
    [by intros ?%elem_of_nil|].
  simpl. intros [->|[Hd|Hd]%elem_of_app]%elem_of_cons.
  - exists [], (concat blocks), dc. split; [|done].
    by apply findChildren_step_fuel.
  - destruct (IH _ _ _ Hdc Hd) as (l1 & l2 & dd & Hdd & ->).
    exists (folder_id c :: l1), (l2 ++ concat blocks), dd. split.
    + by apply findChildren_step_fuel.
    + simpl. by rewrite <- ?app_assoc, <- ?app_comm_cons, <- ?app_assoc.
  - destruct (IHb Hd) as (l1 & l2 & dd & Hdd & ->).
    exists (folder_id c :: dc ++ l1), l2, dd. split; [done|].
    simpl. by rewrite <- ?app_assoc, <- ?app_comm_cons, <- ?app_assoc.
Qed.

(** X11: the list [findDescendantFolders] returns is in pre-order.  It is
    made of one block per subfolder of the start folder, in the order
    [findMany] gave them, each block being the subfolder followed by the
    list [findDescendantFolders] returns for it; so every folder of the
    list is followed at once by its own descendants, and comes before each
    of its subfolders. *)
Theorem findDescendantFolders_preorder (fuel : nat) (s : Store) (F : Z) :
  bounded s fuel F →
  ∃ ds, findDescendantFolders fuel s F = Some ds ∧
    (∃ blocks, ds = concat blocks ∧
       Forall2
         (λ c b, ∃ dc, findDescendantFolders fuel s (folder_id c) = Some dc ∧
                       b = folder_id c :: dc)
         (Prisma.folder_findMany_parentId s F) blocks) ∧
    (∀ d, d ∈ ds →
       ∃ l1 l2 dd, findDescendantFolders fuel s d = Some dd ∧
                   ds = l1 ++ d :: dd ++ l2 ∧
                   ∀ x, x ∈ dd ↔ descendant s d x) ∧
    (∀ x y, x ∈ ds → child_of s x y → precedes x y ds).
Proof.
  unfold findDescendantFolders. intros Hb.
  destruct (proj2 (findChildren_returns fuel s F [])) as [ds Hds]; [done|].
  assert (Hblock : ∀ d, d ∈ ds →
    ∃ l1 l2 dd, findChildren fuel s d [] = Some dd ∧ ds = l1 ++ d :: dd ++ l2 ∧
                ∀ x, x ∈ dd ↔ descendant s d x).
  { intros d Hd.
    destruct (findChildren_subtree_block _ _ _ _ _ Hds Hd) as (l1 & l2 & dd & Hdd & ->).
    exists l1, l2, dd. split_and!; [done..|].
    by destruct (findChildren_pushes _ _ _ _ _ Hdd) as (new & -> & Hnew). }
  exists ds. split_and!; [done| |done|].
  - destruct fuel as [|fuel]; [done|].
    destruct (findChildren_blocks _ _ _ _ Hds) as (blocks & -> & Hblocks).
    exists blocks. split; [done|].
    eapply Forall2_impl; [exact Hblocks|].
    intros c b (dc & Hdc & ->). exists dc. split; [|done].
    by apply findChildren_step_fuel.
  - intros x y Hx Hc. destruct (Hblock x Hx) as (l1 & l2 & dd & _ & -> & Hdd).
    assert (y ∈ dd) as (k1 & k2 & ->)%list_elem_of_split
      by (apply Hdd; by apply tc_once).
    exists l1, k1, (k2 ++ l2). by rewrite <- !app_assoc.
Qed.

(** ** The home folder *)

Lemma find_first_app {A} (P : A → Prop) `{!∀ x, Decision (P x)} (l k : list A) :
  snd <$> list_find P (l ++ k) =
    match snd <$> list_find P l with
    | Some x => Some x
    | None => snd <$> list_find P k
    end.
Proof.
  induction l as [|y l IH]; csimpl; [by destruct (list_find P k) as [[??]|]|].
  case_decide; [done|]. rewrite <- !option_fmap_compose.
  destruct (list_find P (l ++ k)) as [[??]|], (list_find P l) as [[??]|],
    (list_find P k) as [[??]|]; simplify_eq/=; done.
Qed.

Lemma findFirst_root_head s V :
  Prisma.folder_findFirst_root s V = head (roots s V).
Proof.
  unfold Prisma.folder_findFirst_root, roots.
  generalize (folders s). intros l.
  induction l as [|f l IH]; [done|]. csimpl.
  rewrite filter_cons.
  destruct (decide (folder_userId f = V ∧ folder_parentId f = None)); [done|].
  rewrite <- IH, <- option_fmap_compose.
  by destruct (list_find _ l) as [[??]|].
Qed.

(** X12: [findHomeFolderId] answers with the first parentless folder of the
    user, and throws a TypeError when there is none; [createHomeFolder]
    makes it answer for a user without one, and does not change the answer
    for a user that has one, nor for any other user. *)
Theorem findHomeFolderId_after_createHomeFolder
    (sch : Schema) (s s' : Store) (U : Z) :
  createHomeFolder sch U s = Some (Returned (), s') →
  findHomeFolderId s' U =
    match findHomeFolderId s U with
    | Returned id => Returned id
    | Thrown _ => Returned (nextFolderId s)
    end ∧
  (∀ V, V ≠ U → findHomeFolderId s' V = findHomeFolderId s V) ∧
  (findHomeFolderId s U = Thrown TypeError ↔ roots s U = []) ∧
  (∀ id, findHomeFolderId s U = Returned id →
         ∃ f, head (roots s U) = Some f ∧ folder_id f = id).
Proof.
  intros Hrun.
  pose proof (createFolder_cases sch "Home" U None s) as Hc. cbv zeta in Hc.
  unfold createFolder in Hc. unfold createHomeFolder in Hrun.
  destruct Hc as [[Hc _]|[[e Hc] _]]; rewrite Hc in Hrun; [|done].
  injection Hrun as <-.
  pose proof (findFirst_root_head s) as Hroot.
  split_and!.
  - unfold findHomeFolderId, Prisma.folder_findFirst_root. simpl.
    rewrite (find_first_app (λ f, folder_userId f = U ∧ folder_parentId f = None)).
    destruct (snd <$> list_find _ (folders s)) as [f|]; [done|].
    csimpl. by rewrite decide_True.
  - intros V HV. unfold findHomeFolderId, Prisma.folder_findFirst_root. simpl.
    rewrite (find_first_app (λ f, folder_userId f = V ∧ folder_parentId f = None)).
    destruct (snd <$> list_find _ (folders s)) as [f|]; [done|].
    csimpl. rewrite decide_False; [done|]. simpl. naive_solver.
  - unfold findHomeFolderId. rewrite Hroot.
    destruct (roots s U); simpl; split; done.
  - intros id. unfold findHomeFolderId. rewrite Hroot.
    destruct (head (roots s U)) as [f|]; [|done]. intros [= <-]. by exists f.
Qed.

(** ** Owners *)

Lemma findFolderUserId_Returned s G u :
  unique_ids s →
  findFolderUserId s G = Returned u ↔
  ∃ f, f ∈ folders s ∧ folder_id f = G ∧ folder_userId f = u.
Proof.
  intros Hu. unfold findFolderUserId. split.
  - destruct (Prisma.folder_findUnique s G) as [f|] eqn:E; [|done].
    intros [= <-]. apply folder_findUnique_Some in E as [? ?]. by exists f.
  - intros (f & Hf & <- & <-). by rewrite (folder_findUnique_unique s f Hu Hf).
Qed.

(** The invariant behind immutable ownership: the id was issued, and every
    row that carries it belongs to [u]. *)
Lemma run_op_owner sch op s s' G u :
  wf_store s → run_op sch op s = Some s' →
  G < nextFolderId s → (∀ f, f ∈ folders s → folder_id f = G → folder_userId f = u) →
  G < nextFolderId s' ∧
  (∀ f, f ∈ folders s' → folder_id f = G → folder_userId f = u).
Proof.
  intros Hwf Hrun HG Hown. pose proof Hwf as (_ & [Hnd Hlt] & _).
  assert (Hnew : ∀ row,
    folders s' = folders s ++ [row] → folder_id row = nextFolderId s →
    nextFolderId s' = nextFolderId s + 1 →
    G < nextFolderId s' ∧
    (∀ f, f ∈ folders s' → folder_id f = G → folder_userId f = u)).
  { intros row Hf Hid Hn. rewrite Hf, Hn. split; [lia|].
    intros f [Hin| ->%list_elem_of_singleton]%elem_of_app Hfid; [by apply Hown|lia]. }
  assert (Hsame : folders s' = folders s → nextFolderId s' = nextFolderId s →
    G < nextFolderId s' ∧
    (∀ f, f ∈ folders s' → folder_id f = G → folder_userId f = u)).
  { intros -> ->. done. }
  destruct op as [fn ln un pw|U|n U p|n pa F sz|F n p|F|F e];
    [simpl in Hrun|simpl in Hrun|simpl in Hrun|simpl in Hrun|simpl in Hrun
    |cbn [run_op] in Hrun|simpl in Hrun].
  - rewrite createUser_cases in Hrun.
    destruct (checkUsernameExists s un); simplify_eq/=; by apply Hsame.
  - pose proof (createFolder_cases sch "Home" U None s) as Hc. cbv zeta in Hc.
    unfold createHomeFolder in Hrun. unfold createFolder in Hc.
    destruct Hc as [[Hc _]|[[e Hc] _]]; rewrite Hc in Hrun; simplify_eq/=;
      [by eapply Hnew|by apply Hsame].
  - pose proof (createFolder_cases sch n U p s) as Hc. cbv zeta in Hc.
    destruct Hc as [[Hc _]|[[e Hc] _]]; rewrite Hc in Hrun; simplify_eq/=;
      [by eapply Hnew|by apply Hsame].
  - revert Hrun. run_db. unfold Prisma.file_create.
    destruct (Prisma.file_violation _ _ _); intros [= <-]; by apply Hsame.
  - destruct (updateFolder sch F n p s) as [[[f'|e] s1]|] eqn:E; simplify_eq/=.
    + destruct (updateFolder_folders _ _ _ _ _ _ _ E)
        as (Hf & Hid & _ & old & Hold & Hoid & Hou).
      assert (nextFolderId s' = nextFolderId s) as Hn.
      { pose proof (updateFolder_cases sch F n p s) as Hc.
        destruct (Prisma.folder_findUnique s F); [|congruence]. cbv zeta in Hc.
        destruct (Prisma.folder_violation _ _ _ _); rewrite Hc in E; by simplify_eq/=. }
      rewrite Hn. split; [done|]. rewrite Hf.
      intros f (g & -> & Hg)%list_elem_of_fmap. case_decide.
      * intros HFG. rewrite Hou. apply Hown; [done|congruence].
      * by apply Hown.
    + pose proof (updateFolder_cases sch F n p s) as Hc.
      destruct (Prisma.folder_findUnique s F); [|rewrite Hc in E; simplify_eq/=; by apply Hsame].
      cbv zeta in Hc. destruct (Prisma.folder_violation _ _ _ _);
        rewrite Hc in E; simplify_eq/=. by apply Hsame.
  - unfold state_after in Hrun.
    destruct (deleteFolder sch (S (length (folders s))) F s) as [[r s1]|] eqn:E;
      [|by cbn in Hrun].
    cbn in Hrun. injection Hrun as <-.
    destruct (deleteFolder_shrinks _ _ _ _ _ _ E) as (_ & Hsub & _ & _ & _ & Hn & _).
    rewrite Hn. split; [done|]. intros f Hf. apply Hown. by eapply elem_of_sublist.
  - rewrite createShareLink_cases in Hrun.
    destruct (foreign_keys sch && negb (Prisma.folder_exists s F));
      simplify_eq/=; by apply Hsame.
Qed.

(** X13: no sequence of calls changes the owner of a folder: as long as the
    folder is there, [findFolderUserId] gives the same user, and once the
    folder is gone its id is not given to another folder. *)
Theorem owner_never_changes
    (sch : Schema) (ops : list Op) (s s' : Store) (G u : Z) :
  wf_store s → findFolderUserId s G = Returned u →
  run_ops sch ops s = Some s' →
  findFolderUserId s' G = Returned u ∨ Prisma.folder_exists s' G = false.
Proof.
  intros Hwf Hown Hrun.
  assert (G < nextFolderId s' ∧
          (∀ f, f ∈ folders s' → folder_id f = G → folder_userId f = u) ∧
          wf_store s') as (_ & Hu' & Hwf').
  { pose proof Hwf as (_ & [Hnd Hlt] & _).
    apply (findFolderUserId_Returned s G u Hnd) in Hown as (f0 & Hf0 & Hid0 & Hu0).
    assert (G < nextFolderId s) as HG by (rewrite <- Hid0; by apply Hlt).
    assert (∀ f, f ∈ folders s → folder_id f = G → folder_userId f = u) as Hall.
    { intros f Hf Hid. rewrite <- Hu0. f_equal.
      apply (NoDup_fmap_elem_eq folder_id (folders s)); [done..|congruence]. }
    clear Hf0 Hid0 Hu0 f0 Hnd Hlt.
    revert s Hwf HG Hall Hrun. unfold run_ops.
    induction ops as [|op ops IH]; intros s Hwf HG Hall; simpl.
    - by intros [= <-].
    - destruct (run_op sch op s) as [s1|] eqn:E.
      + destruct (run_op_owner _ _ _ _ _ _ Hwf E HG Hall) as [HG1 Hall1].
        apply IH; [by eapply run_op_wf|done..].
      + intros H. exfalso. clear -H. induction ops; simpl in *; [done|auto]. }
  destruct (Prisma.folder_exists s' G) eqn:He; [left|by right].
  apply folder_exists_true in He as (f & Hf & Hid).
  destruct Hwf' as (_ & [Hnd' _] & _).
  apply (findFolderUserId_Returned s' G u Hnd'). exists f. split_and!; try done.
  by apply Hu'.
Qed.

(** ** Files *)

Lemma findFolder_fields s F v :
  findFolder s F = Some v ↔
  ∃ f, Prisma.folder_findUnique s F = Some f ∧
       v = mkFolderWithRelations f (Prisma.folder_subfolders s f)
             (Prisma.folder_files s f) (load_parent findFolder_include s f).
Proof.
  unfold findFolder. destruct (Prisma.folder_findUnique s F) as [f|]; simpl.
  - split; [intros [= <-]; by exists f|by intros (? & [= <-] & ->)].
  - split; [done|by intros (? & [=] & _)].
Qed.

Lemma checkFilenameExist_true s name F :
  checkFilenameExist s name F = true ↔
  ∃ x, x ∈ files s ∧ file_name x = name ∧ file_folderId x = F.
Proof.
  unfold checkFilenameExist, Prisma.file_findFirst_name_folderId.
  set (P := λ x, file_name x = name ∧ file_folderId x = F).
  destruct (snd <$> list_find P (files s)) as [x|] eqn:E; simpl.
  - apply (find_first_Some P) in E as [? [? ?]]. naive_solver.
  - split; [done|]. intros (x & Hx & Hn & Hp).
    rewrite (find_first_None P) in E. by destruct (E x Hx).
Qed.

Lemma file_name_clash_check s row :
  Prisma.file_name_clash (files s) row
  = checkFilenameExist s (file_name row) (file_folderId row).
Proof.
  apply eq_true_iff_eq. unfold Prisma.file_name_clash.
  rewrite bool_decide_eq_true, Exists_exists, checkFilenameExist_true.
  done.
Qed.

(** When the store accepts a new file row. *)
Lemma file_violation_None sch s row :
  Prisma.file_violation sch s row = None ↔
  (file_size_int sch = true → -2147483648 ≤ file_size row ≤ 2147483647) ∧
  (foreign_keys sch = true → Prisma.folder_exists s (file_folderId row) = true) ∧
  (unique_file_names sch = true →
     checkFilenameExist s (file_name row) (file_folderId row) = false).
Proof.
  unfold Prisma.file_violation, Prisma.int32.
  rewrite file_name_clash_check.
  destruct (file_size_int sch), (foreign_keys sch), (unique_file_names sch),
    (Prisma.folder_exists s (file_folderId row)),
    (checkFilenameExist s (file_name row) (file_folderId row));
    simpl; try case_bool_decide; simpl; naive_solver.
Qed.

Lemma createFile_cases sch name path F size s :
  let row := mkFile (nextFileId s) name path F size in
  createFile sch name path F size s =
    match Prisma.file_violation sch s row with
    | Some e => Some (Thrown e, s)
    | None =>
        Some (Returned (),
              Prisma.log (WCreateFile (nextFileId s))
                (mkStore (users s) (folders s) (files s ++ [row]) (shareLinks s)
                   (nextUserId s) (nextFolderId s) (nextFileId s + 1)
                   (nextShareLinkId s) (journal s)))
    end.
Proof.
  run_db. unfold Prisma.file_create. simpl.
  by destruct (Prisma.file_violation _ _ _).
Qed.

(** X14: [createFile] makes no test of its own, and none of the file name:
    it returns exactly when the store accepts the row, that is, when the
    size fits the column, the folder exists and no file of that name is in
    the folder, each where the schema declares it; otherwise it throws and
    changes nothing.  After it returned, the table holds the new row beside
    the old ones, the file is found by its id, the files that were there
    are found as before, the name is reported as taken in that folder and
    no other answer of [checkFilenameExist] has changed, and [findFolder]
    lists the file among the files of the folder. *)
Theorem createFile_then_lookup
    (sch : Schema) (s : Store) (name path : string) (F size : Z) :
  (∀ x, x ∈ files s → file_id x < nextFileId s) →
  let row := mkFile (nextFileId s) name path F size in
  ((∃ s', createFile sch name path F size s = Some (Returned (), s')) ↔
     (file_size_int sch = true → -2147483648 ≤ size ≤ 2147483647) ∧
     (foreign_keys sch = true → Prisma.folder_exists s F = true) ∧
     (unique_file_names sch = true → checkFilenameExist s name F = false)) ∧
  (∀ e s', createFile sch name path F size s = Some (Thrown e, s') → s' = s) ∧
  createFile sch name path F size s ≠ None ∧
  (∀ s', createFile sch name path F size s = Some (Returned (), s') →
     files s' ≡ₚ row :: files s ∧ folders s' = folders s ∧
     findFile s' (file_id row) = Some row ∧
     (∀ i x, findFile s i = Some x → findFile s' i = Some x) ∧
     checkFilenameExist s' name F = true ∧
     (∀ name' F', (name', F') ≠ (name, F) →
        checkFilenameExist s' name' F' = checkFilenameExist s name' F') ∧
     (∀ v, findFolder s F = Some v →
        ∃ v', findFolder s' F = Some v' ∧ fr_folder v' = fr_folder v ∧
              fr_files v' ≡ₚ row :: fr_files v ∧
              fr_subfolders v' = fr_subfolders v)).
Proof.
  intros Hbelow row. pose proof (createFile_cases sch name path F size s) as Hc.
  cbv zeta in Hc. fold row in Hc. rewrite Hc.
  pose proof (file_violation_None sch s row) as Hnone. simpl in Hnone.
  split_and!.
  - rewrite <- Hnone. destruct (Prisma.file_violation sch s row).
    + split; [by intros (? & [=])|done].
    + split; [done|]. by eexists.
  - intros e s'. by destruct (Prisma.file_violation sch s row); intros [= _ <-].
  - by destruct (Prisma.file_violation sch s row).
  - intros s'. destruct (Prisma.file_violation sch s row); intros [= <-].
    simpl. split_and!.
    + by rewrite Permutation_app_comm.
    + done.
    + unfold findFile, Prisma.file_findUnique. simpl.
      apply (find_first_app_new (λ f, file_id f = nextFileId s)); [|done].
      intros y Hy Heq. specialize (Hbelow y Hy). lia.
    + unfold findFile, Prisma.file_findUnique. simpl. intros i x Hx.
      rewrite (find_first_app_old (λ f, file_id f = i)); [done|].
      by rewrite Hx.
    + apply checkFilenameExist_true. exists row. simpl.
      split; [|done]. apply elem_of_app. right. by left.
    + intros name' F' Hne.
      unfold checkFilenameExist, Prisma.file_findFirst_name_folderId. simpl.
      rewrite (find_first_app_miss (λ f, file_name f = name' ∧ file_folderId f = F'));
        [done|].
      simpl. intros [? ?]. apply Hne. congruence.
    + intros v (f & Hf & ->)%findFolder_fields. eexists. split.
      { apply findFolder_fields. exists f. split; [exact Hf|done]. }
      simpl. split_and!; try done.
      apply folder_findUnique_Some in Hf as [_ Hid].
      unfold Prisma.folder_files. simpl.
      rewrite filter_app, filter_cons, decide_True, filter_nil by done.
      by rewrite Permutation_app_comm.
Qed.

(** ** Share links *)

(** X15: a share link that was created is found by its id, with the expiry it
    was given; the other ids resolve as before. *)
Theorem createShareLink_then_find
    (sch : Schema) (s s' : Store) (F expiresAt : Z) (l : ShareLink) :
  (∀ x, x ∈ shareLinks s → link_id x < nextShareLinkId s) →
  createShareLink sch F expiresAt s = Some (Returned l, s') →
  findShareLink s' (link_id l) = Some l ∧
  link_folderId l = F ∧ link_expiresAt l = expiresAt ∧
  findShareLink s (link_id l) = None ∧
  (∀ L, L ≠ link_id l → findShareLink s' L = findShareLink s L).
Proof.
  intros Hbelow. rewrite createShareLink_cases.
  destruct (foreign_keys sch && negb (Prisma.folder_exists s F)); [done|].
  intros [= <- <-]. simpl. unfold findShareLink, Prisma.shareLink_findUnique. simpl.
  split_and!; try done.
  - apply (find_first_app_new (λ x, link_id x = nextShareLinkId s)); [|done].
    intros y Hy Heq. specialize (Hbelow y Hy). lia.
  - apply (find_first_None (λ x, link_id x = nextShareLinkId s)).
    intros y Hy Heq. specialize (Hbelow y Hy). lia.
  - intros L HL. apply (find_first_app_miss (λ x, link_id x = L)). simpl. congruence.
Qed.

(** X16: after a folder was deleted, the share links on it and on the folders
    below it are not found any more; every other share link is found as
    before. *)
Theorem deleteFolder_unshares
    (sch : Schema) (fuel : nat) (F : Z) (s : Store) (l : ShareLink) :
  unique_ids s → NoDup (link_id <$> shareLinks s) →
  Prisma.folder_exists s F = true → bounded s fuel F →
  l ∈ shareLinks s →
  ∃ s', deleteFolder sch fuel F s = Some (Returned (), s') ∧
    (in_subtree s F (link_folderId l) → findShareLink s' (link_id l) = None) ∧
    (¬ in_subtree s F (link_folderId l) → findShareLink s' (link_id l) = Some l).
Proof.
  intros Hu Hnd He Hb Hl.
  destruct (deleteFolder_subtree sch fuel s F Hu Hb He)
    as (s' & X & tr & Hrun & (_ & _ & Hwl & _) & HX & _).
  exists s'. split; [done|]. unfold findShareLink, Prisma.shareLink_findUnique.
  rewrite Hwl. split.
  - intros Hin%HX. apply (find_first_None (λ x, link_id x = link_id l)).
    intros y [Hnot Hy]%list_elem_of_filter Heq.
    assert (y = l) as -> by by apply (NoDup_fmap_elem_eq link_id (shareLinks s)).
    done.
  - intros Hout. apply (find_first_unique _ link_id); [|done|].
    + eapply sublist_NoDup; [exact Hnd|]. apply fmap_sublist, sublist_filter.
    + apply list_elem_of_filter. split; [|done]. by rewrite HX.
Qed.

(** ** Folders *)

(** X17: a folder that was created is found by its id with the name, owner and
    parent it was given, its name is reported as taken under that parent
    (and no other answer of [checkFoldernameExist] changes), and
    [findFolder] on the parent lists it last among the subfolders. *)
Theorem createFolder_then_lookup
    (sch : Schema) (s s' : Store) (name : string) (U : Z) (p : option Z) :
  (∀ f, f ∈ folders s → folder_id f < nextFolderId s) →
  createFolder sch name U p s = Some (Returned (), s') →
  let row := mkFolder (nextFolderId s) name U p in
  Prisma.folder_findUnique s' (nextFolderId s) = Some row ∧
  findFolderUserId s' (nextFolderId s) = Returned U ∧
  checkFoldernameExist s' name p = true ∧
  (∀ n' p', (n', p') ≠ (name, p) →
     checkFoldernameExist s' n' p' = checkFoldernameExist s n' p') ∧
  (∀ P v, p = Some P → findFolder s P = Some v →
     ∃ v', findFolder s' P = Some v' ∧ fr_folder v' = fr_folder v ∧
           fr_subfolders v' = fr_subfolders v ++ [row] ∧
           fr_files v' = fr_files v).
Proof.
  intros Hbelow Hrun row.
  pose proof (createFolder_cases sch name U p s) as Hc. cbv zeta in Hc.
  destruct Hc as [[Hc _]|[[e Hc] _]]; rewrite Hc in Hrun; [|done].
  injection Hrun as <-. fold row.
  assert (Hfind : Prisma.folder_findUnique
            (Prisma.log (WCreateFolder (nextFolderId s))
               (mkStore (users s) (folders s ++ [row]) (files s) (shareLinks s)
                  (nextUserId s) (nextFolderId s + 1) (nextFileId s)
                  (nextShareLinkId s) (journal s))) (nextFolderId s) = Some row).
  { unfold Prisma.folder_findUnique. simpl.
    apply (find_first_app_new (λ f, folder_id f = nextFolderId s)); [|done].
    intros y Hy Heq. specialize (Hbelow y Hy). lia. }
  split_and!.
  - done.
  - unfold findFolderUserId. by rewrite Hfind.
  - apply checkFoldernameExist_true. exists row. simpl. split; [|done].
    apply elem_of_app. right. by left.
  - intros n' p' Hne. unfold checkFoldernameExist, Prisma.folder_findFirst_name_parentId.
    simpl. f_equal.
    apply (find_first_app_miss (λ f, folder_name f = n' ∧ folder_parentId f = p')).
    simpl. intros [-> ->]. done.
  - intros P v -> (f & Hf & ->)%findFolder_fields. eexists. split.
    { apply findFolder_fields. exists f. split; [|done].
      unfold Prisma.folder_findUnique in *. simpl.
      rewrite (find_first_app_old (λ g, folder_id g = P)); [done|by rewrite Hf]. }
    simpl. split_and!; try done.
    apply folder_findUnique_Some in Hf as [_ Hid].
    unfold Prisma.folder_subfolders, Prisma.folder_findMany_parentId. simpl.
    rewrite filter_app, filter_cons, decide_True, filter_nil; [done|].
    subst row. simpl. by rewrite Hid.
Qed.

(** ** Sequences of calls that keep the tree free of cycles *)

Lemma acyclic_sub s s' : folders s' ⊆ folders s → acyclic s → acyclic s'.
Proof. intros Hsub Hac x Hx. apply (Hac x). by eapply descendant_mono. Qed.

Lemma created_folder_acyclic s row :
  acyclic s → parents_issued s →
  (∀ f, f ∈ folders s → folder_id f < nextFolderId s) →
  folder_id row = nextFolderId s →
  (∀ q, folder_parentId row = Some q → q < nextFolderId s) →
  ∀ s', folders s' = folders s ++ [row] → acyclic s'.
Proof.
  intros Hac Hpi Hlt Hid Hp s' Hf.
  assert (Hleaf : ∀ c, ¬ child_of s (nextFolderId s) c).
  { intros c (f & Hin & _ & Hfp). specialize (Hpi f _ Hin Hfp). lia. }
  assert (Hch : ∀ x y, child_of s' x y →
            child_of s x y ∨ (y = nextFolderId s ∧ folder_parentId row = Some x)).
  { intros x y (f & Hin & Hfid & Hfp). rewrite Hf in Hin.
    apply elem_of_app in Hin as [Hin| ->%list_elem_of_singleton].
    - left. by exists f.
    - right. split; congruence. }
  assert (Hd : ∀ x y, descendant s' x y → descendant s x y ∨ y = nextFolderId s).
  { induction 1 as [x y Hc|x c y Hc _ IH].
    - apply Hch in Hc as [Hc|[-> _]]; [left; by apply tc_once|by right].
    - destruct IH as [IH| ->]; [|by right].
      apply Hch in Hc as [Hc|[-> _]]; [left; by eapply tc_l|].
      apply descendant_inv_l in IH as (c' & Hc' & _). by destruct (Hleaf c'). }
  intros x Hx. destruct (Hd x x Hx) as [Hold| ->]; [by apply (Hac x)|].
  apply descendant_inv_r in Hx as (y & Hy & Hc).
  apply Hch in Hc as [(f & Hin & Hfid & _)|[_ Hq]].
  - specialize (Hlt f Hin). lia.
  - destruct Hy as [->|Hy]; [specialize (Hp _ Hq); lia|].
    apply descendant_inv_l in Hy as (c' & Hc' & _).
    apply Hch in Hc' as [Hc'|[_ Hq']]; [by destruct (Hleaf c')|].
    specialize (Hp _ Hq'). lia.
Qed.

Lemma run_op_acyclic sch op s s' :
  foreign_keys sch = true →
  wf_store s → parents_issued s → acyclic s → safe_op s op →
  run_op sch op s = Some s' →
  acyclic s' ∧ parents_issued s'.
Proof.
  intros Hfk Hwf Hpi Hac Hsafe Hrun. pose proof Hwf as (_ & [Hnd Hlt] & _).
  assert (Hsame : folders s' = folders s → nextFolderId s' = nextFolderId s →
            acyclic s' ∧ parents_issued s').
  { intros Hf Hn. split; [apply (acyclic_sub s); [by rewrite Hf|done]|].
    unfold parents_issued. by rewrite Hf, Hn. }
  assert (Hnew : ∀ n U p,
    createFolder sch n U p s = Some (Returned (), s') →
    acyclic s' ∧ parents_issued s').
  { intros n U p Hr.
    pose proof (createFolder_cases sch n U p s) as Hc. cbv zeta in Hc.
    destruct Hc as [(Hc & _ & Hv)|[[e Hc] _]]; rewrite Hc in Hr; [|done].
    injection Hr as <-.
    apply folder_violation_None in Hv as [Hv _]. specialize (Hv Hfk). simpl in Hv.
    assert (∀ q, p = Some q → q < nextFolderId s) as Hq.
    { intros q ->. specialize (Hv q eq_refl).
      apply folder_exists_true in Hv as (f & Hin & <-). by apply Hlt. }
    split.
    - eapply (created_folder_acyclic s (mkFolder (nextFolderId s) n U p)); done.
    - intros f q [Hin| ->%list_elem_of_singleton]%elem_of_app Hfp; simpl in *.
      + specialize (Hpi f q Hin Hfp). lia.
      + specialize (Hq q Hfp). lia. }
  destruct op as [fn ln un pw|U|n U p|n pa F sz|F n p|F|F e];
    [simpl in Hrun|simpl in Hrun|simpl in Hrun|simpl in Hrun|simpl in Hrun
    |cbn [run_op] in Hrun|simpl in Hrun].
  - rewrite createUser_cases in Hrun.
    destruct (checkUsernameExists s un); simplify_eq/=; by apply Hsame.
  - unfold createHomeFolder in Hrun.
    destruct (createFolder_cases sch "Home" U None s) as [(Hc & _)|[[e Hc] _]];
      unfold createFolder in Hc; rewrite Hc in Hrun; simplify_eq/=.
    + apply (Hnew "Home" U None). exact Hc.
    + by apply Hsame.
  - destruct (createFolder_cases sch n U p s) as [(Hc & _)|[[e Hc] _]];
      rewrite Hc in Hrun; simplify_eq/=.
    + apply (Hnew n U p). exact Hc.
    + by apply Hsame.
  - revert Hrun. run_db. unfold Prisma.file_create.
    destruct (Prisma.file_violation _ _ _); intros [= <-]; by apply Hsame.
  - destruct (updateFolder sch F n p s) as [[[f'|e] s1]|] eqn:E; simplify_eq/=.
    + split; [by eapply updateFolder_keeps_acyclic|].
      destruct (updateFolder_folders _ _ _ _ _ _ _ E) as (Hf & Hid & Hp & _).
      pose proof (updateFolder_cases sch F n p s) as Hc.
      destruct (Prisma.folder_findUnique s F) as [old|]; [|congruence].
      cbv zeta in Hc.
      destruct (Prisma.folder_violation _ _ _ _) eqn:Hv; rewrite Hc in E; [done|].
      injection E as <- <-.
      apply folder_violation_None in Hv as [Hv _]. specialize (Hv Hfk). simpl in Hv.
      intros f q (g & -> & Hg)%list_elem_of_fmap. simpl. case_decide.
      * simpl. intros Hq. specialize (Hv q Hq).
        apply folder_exists_true in Hv as (h & Hin & <-). by apply Hlt.
      * by apply Hpi.
    + pose proof (updateFolder_cases sch F n p s) as Hc.
      destruct (Prisma.folder_findUnique s F); [|rewrite Hc in E; simplify_eq/=; by apply Hsame].
      cbv zeta in Hc. destruct (Prisma.folder_violation _ _ _ _);
        rewrite Hc in E; simplify_eq/=. by apply Hsame.
  - unfold state_after in Hrun.
    destruct (deleteFolder sch (S (length (folders s))) F s) as [[r s1]|] eqn:E;
      [|by cbn in Hrun].
    cbn in Hrun. injection Hrun as <-.
    pose proof (deleteFolder_shrinks _ _ _ _ _ _ E) as Hsh.
    pose proof (shrinks_subseteq _ _ Hsh) as Hsub.
    destruct Hsh as (_ & _ & _ & _ & _ & Hn & _).
    split; [by eapply acyclic_sub|].
    intros f q Hin Hfp. rewrite Hn. apply (Hpi f q); [by apply Hsub|done].
  - rewrite createShareLink_cases in Hrun.
    destruct (foreign_keys sch && negb (Prisma.folder_exists s F));
      simplify_eq/=; by apply Hsame.
Qed.

(** X6: where references are enforced, a sequence of calls in which every move
    goes to a folder that is neither the moved folder nor below it keeps
    the tree free of cycles. *)
Theorem safe_moves_keep_acyclic
    (sch : Schema) (ops : list Op) (s s' : Store) :
  foreign_keys sch = true →
  wf_store s → parents_issued s → acyclic s →
  safe_run sch ops s → run_ops sch ops s = Some s' →
  acyclic s' ∧ parents_issued s' ∧ wf_store s'.
Proof.
  intros Hfk. unfold run_ops. revert s.
  induction ops as [|op ops IH]; intros s Hwf Hpi Hac Hsafe; simpl.
  - by intros [= <-].
  - destruct Hsafe as [Hop Hrest].
    destruct (run_op sch op s) as [s1|] eqn:E.
    + destruct (run_op_acyclic _ _ _ _ Hfk Hwf Hpi Hac Hop E) as [Hac1 Hpi1].
      apply IH; [by eapply run_op_wf|done|done|by apply Hrest].
    + intros H. exfalso. clear -H. induction ops; simpl in *; [done|auto].
Qed.

(** Where references are not enforced, [createFolder] alone can close a
    cycle: a folder is created under an id that is not issued yet, and the
    folder that then gets that id is created under the first one. *)
Lemma createFolder_can_close_a_cycle :
  ∃ s', run_ops lax
          [OpCreateUser "Alice" "A" "alice" "x";
           OpCreateFolder "a" 1 (Some 2); OpCreateFolder "b" 1 (Some 1)]
          emptyStore = Some s' ∧
        descendant s' 1 1.
Proof.
  eexists. split; [vm_compute; reflexivity|].
  eapply tc_l; [|apply tc_once].
  - exists (mkFolder 2 "b" 1 (Some 1)). split; [|done]. set_solver.
  - exists (mkFolder 1 "a" 1 (Some 2)). split; [|done]. set_solver.
Qed.

(** ** formatSize *)

Lemma hundredths_bounds num den :
  0 < den →
  200 * num - den < 2 * hundredths num den * den ≤ 200 * num + den.
Proof.
  intros Hden. unfold hundredths.
  pose proof (Z.div_mod (200 * num + den) (2 * den)) as Hdm.
  pose proof (Z.mod_pos_bound (200 * num + den) (2 * den)) as Hb.
  nia.
Qed.

Lemma hundredths_mono num num' den :
  0 < den → num ≤ num' → hundredths num den ≤ hundredths num' den.
Proof.
  intros Hden Hle. unfold hundredths. apply Z.div_le_mono; lia.
Qed.

Lemma hundredths_exact k den : 0 < den → hundredths (k * den) den = 100 * k.
Proof.
  intros Hden. unfold hundredths.
  replace (200 * (k * den) + den) with (den + (100 * k) * (2 * den)) by lia.
  rewrite Z.div_add by lia. rewrite Z.div_small by lia. lia.
Qed.

(** The hundredths shown are nearest to the exact quotient, and the larger
    of the two on a tie. *)
Lemma hundredths_nearest num den (k : Z) :
  0 < den →
  Z.abs (100 * num - hundredths num den * den) ≤ Z.abs (100 * num - k * den) ∧
  (Z.abs (100 * num - k * den) = Z.abs (100 * num - hundredths num den * den) →
   k ≤ hundredths num den).
Proof.
  intros Hden. pose proof (hundredths_bounds num den Hden) as Hb.
  destruct (Z.lt_trichotomy k (hundredths num den)) as [Hlt|[->|Hgt]].
  - assert (den ≤ (hundredths num den - k) * den) by nia. lia.
  - lia.
  - assert (den ≤ (k - hundredths num den) * den) by nia. lia.
Qed.

(** X18: a size from 1024 bytes up to the largest safe integer is shown in
    KB below 1048576, in MB below 1073741824 and in GB above, as the
    decimal with two digits that is nearest to the exact quotient by the
    unit, the larger one when two are equally near, and never as less than
    1.00. *)
Theorem formatSize_rounds (bytes : Z) :
  1024 ≤ bytes < 2 ^ 53 →
  ∃ unit suffix h,
    formatSize bytes = Some (show_hundredths h +:+ suffix) ∧
    ((unit = 1024 ∧ suffix = " KB" ∧ bytes < 1048576) ∨
     (unit = 1048576 ∧ suffix = " MB" ∧ 1048576 ≤ bytes < 1073741824) ∨
     (unit = 1073741824 ∧ suffix = " GB" ∧ 1073741824 ≤ bytes)) ∧
    (∀ k, Z.abs (100 * bytes - h * unit) ≤ Z.abs (100 * bytes - k * unit)) ∧
    (∀ k, Z.abs (100 * bytes - k * unit) = Z.abs (100 * bytes - h * unit) → k ≤ h) ∧
    100 ≤ h.
Proof.
  intros Hb. unfold formatSize, toFixed2. rewrite bool_decide_eq_false_2 by lia.
  assert (Hlow : ∀ unit, 0 < unit → unit ≤ bytes → 100 ≤ hundredths bytes unit).
  { intros unit Hu Hle.
    assert (hundredths (1 * unit) unit ≤ hundredths bytes unit) as Hm
      by (apply hundredths_mono; lia).
    rewrite hundredths_exact in Hm by done. lia. }
  assert (Hfin : ∀ unit, 0 < unit →
            bool_decide (bytes < 10 ^ 21 * unit) = true).
  { intros unit Hu. apply bool_decide_eq_true. nia. }
  rewrite (Hfin 1024), (Hfin 1048576), (Hfin 1073741824) by lia.
  repeat case_bool_decide; simpl.
  - exists 1024, " KB", (hundredths bytes 1024).
    split_and!; [done|left; split_and!; (done || lia)| | |apply Hlow; lia];
      intros k; apply hundredths_nearest; lia.
  - exists 1048576, " MB", (hundredths bytes 1048576).
    split_and!; [done|right; left; split_and!; (done || lia)| | |apply Hlow; lia];
      intros k; apply hundredths_nearest; lia.
  - exists 1073741824, " GB", (hundredths bytes 1073741824).
    split_and!; [done|right; right; split_and!; (done || lia)| | |apply Hlow; lia];
      intros k; apply hundredths_nearest; lia.
Qed.

(** X19: just below a unit boundary the rounding reaches 1024.00 of the smaller
    unit: the last five sizes below 1 MB are shown as 1024.00 KB, and the
    sizes from 1073736582 bytes to just below 1 GB as 1024.00 MB. *)
Theorem formatSize_reaches_1024 (bytes : Z) :
  (1048571 ≤ bytes < 1048576 → formatSize bytes = Some "1024.00 KB") ∧
  (1073736582 ≤ bytes < 1073741824 → formatSize bytes = Some "1024.00 MB") ∧
  (1024 ≤ bytes < 1048571 → hundredths bytes 1024 < 102400) ∧
  (1048576 ≤ bytes < 1073736582 → hundredths bytes 1048576 < 102400).
Proof.
  split_and!.
  - intros Hb. unfold formatSize, toFixed2.
    rewrite bool_decide_eq_false_2, !bool_decide_eq_true_2 by lia.
    assert (hundredths bytes 1024 = 102400) as Hn.
    { pose proof (hundredths_bounds bytes 1024). lia. }
    rewrite Hn. reflexivity.
  - intros Hb. unfold formatSize, toFixed2.
    rewrite !bool_decide_eq_false_2, !bool_decide_eq_true_2 by lia.
    assert (hundredths bytes 1048576 = 102400) as Hn.
    { pose proof (hundredths_bounds bytes 1048576). lia. }
    rewrite Hn. reflexivity.
  - intros Hb. pose proof (hundredths_bounds bytes 1024). lia.
  - intros Hb. pose proof (hundredths_bounds bytes 1048576). lia.
Qed.

(** ** The theorems at work on the example stores *)

Lemma demo_wf : wf_store demo.
Proof.
  unfold wf_store, keys_below. simpl.
  split_and!; try compute_done; intros r Hr;
    repeat (apply elem_of_cons in Hr as [->|Hr]; [simpl; lia|]);
    by apply elem_of_nil in Hr.
Qed.

Lemma demo_acyclic : acyclic demo.
Proof. apply parents_first_acyclic. reflexivity. Qed.

Lemma demo_parents_issued : parents_issued demo.
Proof.
  intros f q Hf. unfold demo in Hf; simpl in Hf.
  repeat (apply elem_of_cons in Hf as [->|Hf]; [simpl; intros [= <-]; lia|]).
  by apply elem_of_nil in Hf.
Qed.

(** Creating the user carol in the demo store. *)
Lemma createUser_then_lookup_witness :
  ∃ u s', createUser "Carol" "C" "carol" "z" demo = Some (Returned u, s') ∧
          user_id u = 3 ∧
          findUser s' "username" (JsString "carol") = UserResult (Some u) ∧
          findUser s' "id" (JsNumber 3) = UserResult (Some u).
Proof.
  destruct (createUser_then_lookup demo "Carol" "C" "carol" "z") as [_ Hok].
  - destruct demo_wf as ([_ H] & _). exact H.
  - destruct Hok as (u & s' & Hrun & Hu & _ & _ & Hn & Hi & _); [reflexivity|].
    subst u. eexists _, s'. split; [exact Hrun|].
    split; [reflexivity|]. split; [exact Hn|exact Hi].
Defined.

(** Looking bob up in the demo store. *)
Lemma findUser_keys_agree_witness :
  findUser demo "username" (JsString "bob") = UserResult (Some bob) ∧
  findUser demo "id" (JsNumber 2) = UserResult (Some bob) ∧
  findUser demo "email" (JsString "bob") = InvalidMethod.
Proof.
  destruct (findUser_keys_agree demo bob demo_wf) as (Hn & Hi & Hm).
  assert (bob ∈ users demo) as Hin by (unfold demo; simpl; set_solver).
  split_and!; [by apply Hn|by apply Hi|by apply Hm].
Defined.

(** A create, a move, a deletion and a share link on the demo store. *)
Lemma run_ops_wf_witness :
  ∃ s', run_ops strict
          [OpCreateFolder "Pics" 1 (Some 1); OpUpdateFolder 3 "Reports" (Some 1);
           OpDeleteFolder 2; OpCreateShareLink 3 77] demo = Some s' ∧
        wf_store s'.
Proof.
  destruct (run_ops strict
          [OpCreateFolder "Pics" 1 (Some 1); OpUpdateFolder 3 "Reports" (Some 1);
           OpDeleteFolder 2; OpCreateShareLink 3 77] demo) as [s'|] eqn:E;
    [|vm_compute in E; discriminate].
  exists s'. split; [reflexivity|].
  exact (run_ops_wf strict _ demo s' demo_wf E).
Defined.

(** Moving Reports under Home, one of the folders offered. *)
Lemma updateFolder_valid_target_acyclic_witness :
  ∃ f' s', updateFolder strict 3 "Reports" (Some 1) demo = Some (Returned f', s') ∧
           acyclic s'.
Proof.
  destruct (updateFolder strict 3 "Reports" (Some 1) demo) as [[[f'|e] s']|] eqn:E;
    [|vm_compute in E; discriminate..].
  exists f', s'. split; [reflexivity|].
  refine (proj1 (updateFolder_valid_target_acyclic strict 5 demo s' 1 3 "Reports"
            [mkFolder 1 "Home" 1 None; mkFolder 2 "Docs" 1 (Some 1)]
            (mkFolder 1 "Home" 1 None) f' demo_acyclic eq_refl _ E)).
  by left.
Defined.

(** Moving Docs under its subfolder Reports. *)
Lemma updateFolder_into_subtree_cycles_witness :
  ∃ f' s', updateFolder strict 2 "Docs" (Some 3) demo = Some (Returned f', s') ∧
           descendant s' 2 2 ∧ findParentFolders 100 s' 1 2 = None.
Proof.
  destruct (updateFolder strict 2 "Docs" (Some 3) demo) as [[[f'|e] s']|] eqn:E;
    [|vm_compute in E; discriminate..].
  exists f', s'. split; [reflexivity|].
  destruct (updateFolder_into_subtree_cycles strict demo s' 2 3 "Docs" f')
    as (Hc & _ & Hnone).
  - lia.
  - right. apply tc_once. exists (mkFolder 3 "Reports" 1 (Some 2)).
    split; [unfold demo; simpl; set_solver|done].
  - exact E.
  - split; [exact Hc|]. apply (Hnone 100%nat 1).
Defined.

(** A create, a safe move and a deletion on the demo store. *)
Lemma safe_moves_keep_acyclic_witness :
  ∃ s', run_ops strict
          [OpCreateFolder "Pics" 1 (Some 1); OpUpdateFolder 3 "Reports" (Some 1);
           OpDeleteFolder 2] demo = Some s' ∧
        acyclic s'.
Proof.
  destruct (run_ops strict
          [OpCreateFolder "Pics" 1 (Some 1); OpUpdateFolder 3 "Reports" (Some 1);
           OpDeleteFolder 2] demo) as [s'|] eqn:E;
    [|vm_compute in E; discriminate].
  exists s'. split; [reflexivity|].
  refine (proj1 (safe_moves_keep_acyclic strict _ demo s' eq_refl demo_wf
            demo_parents_issued demo_acyclic _ E)).
  simpl. split; [done|]. intros s1 [= <-]. split.
  - intros P [= <-] [Heq|Hd]; [done|].
    assert (∀ a x, descendant
      (Prisma.log (WCreateFolder 5)
         (mkStore (users demo) (folders demo ++ [mkFolder 5 "Pics" 1 (Some 1)])
            (files demo) (shareLinks demo) 3 6 3 3 [])) a x → a < x) as Hlt.
    { induction 1 as [a x (f & Hf & <- & Hp)|a c x (f & Hf & <- & Hp) _ IH].
      - simpl in Hf.
        repeat (apply elem_of_cons in Hf as [->|Hf]; [simpl in *; simplify_eq; lia|]).
        by apply elem_of_nil in Hf.
      - simpl in Hf.
        repeat (apply elem_of_cons in Hf as [->|Hf]; [simpl in *; simplify_eq; lia|]).
        by apply elem_of_nil in Hf. }
    apply Hlt in Hd. lia.
  - intros s2 _. split; [done|]. intros s3 _. done.
Defined.

Lemma demo_unique_ids : unique_ids demo.
Proof. unfold unique_ids. simpl. compute_done. Qed.

(** Deleting Reports from the demo store. *)
Lemma deleteFolder_contained_witness :
  ∃ r s', deleteFolder strict 2 3 demo = Some (r, s') ∧
    folders s' `sublist_of` folders demo ∧
    ∀ x, x ∈ files demo → x ∉ files s' → in_subtree demo 3 (file_folderId x).
Proof.
  destruct (deleteFolder strict 2 3 demo) as [[r s']|] eqn:E;
    [|vm_compute in E; discriminate].
  exists r, s'. split; [reflexivity|].
  destruct (deleteFolder_contained strict 2 3 demo s' r E)
    as (_ & Hf & _ & _ & _ & Hx & _).
  split; [exact Hf|exact Hx].
Defined.

(** There is no folder 9 in the demo store. *)
Lemma deleteFolder_missing_witness :
  ∃ s', deleteFolder strict 1 9 demo = Some (Thrown RecordNotFound, s') ∧
        folders s' = folders demo ∧ files s' = files demo.
Proof.
  destruct (deleteFolder_missing strict 0 9 demo) as (s' & Hrun & _ & Hf & Hx & _).
  - reflexivity.
  - intros f Hf. unfold demo in Hf; simpl in Hf.
    repeat (apply elem_of_cons in Hf as [->|Hf]; [done|]).
    by apply elem_of_nil in Hf.
  - exists s'. split; [exact Hrun|]. split; [exact Hf|]. rewrite Hx. reflexivity.
Defined.

(** Deleting Docs twice. *)
Lemma deleteFolder_twice_witness :
  ∃ s1 s2,
    deleteFolder strict 5 2 demo = Some (Returned (), s1) ∧
    deleteFolder strict 5 2 s1 = Some (Thrown RecordNotFound, s2) ∧
    folders s2 = folders s1.
Proof.
  destruct (deleteFolder_twice strict 5 2 demo) as (s1 & s2 & H1 & H2 & _ & Hf & _).
  - exact demo_unique_ids.
  - reflexivity.
  - apply acyclic_bounded, demo_acyclic.
  - by exists s1, s2.
Defined.

(** Docs comes before Reports. *)
(** The walk from the home folder of the store with two branches: Docs and
    what lies below it, then Pics and what lies below it. *)
Lemma findDescendantFolders_preorder_witness :
  ∃ ds, findDescendantFolders 7 bushy 1 = Some ds ∧ ds = [2; 4; 6; 3; 5] ∧
        ∀ d, d ∈ ds →
          ∃ l1 l2 dd, findDescendantFolders 7 bushy d = Some dd ∧
                      ds = l1 ++ d :: dd ++ l2.
Proof.
  destruct (findDescendantFolders_preorder 7 bushy 1) as (ds & Hds & _ & Hblock & _).
  - apply (acyclic_bounded bushy 1), parents_first_acyclic. reflexivity.
  - exists ds. split; [exact Hds|]. split.
    + vm_compute in Hds. congruence.
    + intros d Hd. destruct (Hblock d Hd) as (l1 & l2 & dd & Hdd & Heq & _).
      by exists l1, l2, dd.
Defined.

Lemma findHomeFolderId_after_createHomeFolder_witness :
  ∃ s', createHomeFolder strict 1 demo = Some (Returned (), s') ∧
        findHomeFolderId demo 1 = Returned 1 ∧
        findHomeFolderId s' 1 = Returned 1 ∧
        length (roots s' 1) = 2%nat.
Proof.
  destruct (createHomeFolder strict 1 demo) as [[[[]|e] s']|] eqn:E;
    [|vm_compute in E; discriminate..].
  exists s'. split; [reflexivity|].
  destruct (findHomeFolderId_after_createHomeFolder strict demo s' 1 E) as (H1 & _).
  split; [reflexivity|]. split; [exact H1|].
  vm_compute in E. injection E as <-. reflexivity.
Defined.

(** Reports stays with user 1; Docs is gone. *)
Lemma owner_never_changes_witness :
  ∃ s', run_ops strict
          [OpUpdateFolder 3 "Reports" (Some 1); OpCreateFolder "Pics" 2 (Some 3);
           OpDeleteFolder 2] demo = Some s' ∧
        findFolderUserId s' 3 = Returned 1 ∧
        Prisma.folder_exists s' 2 = false.
Proof.
  destruct (run_ops strict
          [OpUpdateFolder 3 "Reports" (Some 1); OpCreateFolder "Pics" 2 (Some 3);
           OpDeleteFolder 2] demo) as [s'|] eqn:E;
    [|vm_compute in E; discriminate].
  exists s'. split; [reflexivity|].
  destruct (owner_never_changes strict _ demo s' 3 1 demo_wf eq_refl E) as [H|H].
  - split; [exact H|]. vm_compute in E. injection E as <-. reflexivity.
  - exfalso. vm_compute in E. injection E as <-. discriminate H.
Defined.

(** A second a.txt in Docs. *)
(** A second a.txt for Docs (2) in the demo store: refused where the file
    name is a key, inserted where it is not. *)
Lemma createFile_then_lookup_witness :
  checkFilenameExist demo "a.txt" 2 = true ∧
  createFile strict "a.txt" "/up/c" 2 30 demo
  = Some (Thrown UniqueConstraintFailed, demo) ∧
  ∃ s', createFile lax "a.txt" "/up/c" 2 30 demo = Some (Returned (), s') ∧
        findFile s' 3 = Some (mkFile 3 "a.txt" "/up/c" 2 30) ∧
        findFile s' 1 = Some (mkFile 1 "a.txt" "/up/a" 2 10).
Proof.
  split; [reflexivity|]. split; [reflexivity|].
  destruct (createFile_then_lookup lax demo "a.txt" "/up/c" 2 30)
    as (Hiff & _ & _ & Hafter).
  - destruct demo_wf as (_ & _ & [_ H] & _). exact H.
  - destruct (proj2 Hiff) as (s' & Hrun); [by split_and!|].
    exists s'. split; [exact Hrun|].
    destruct (Hafter s' Hrun) as (_ & _ & Hnew & Hold & _).
    split; [exact Hnew|]. by apply Hold.
Defined.

Lemma createShareLink_then_find_witness :
  ∃ l s', createShareLink strict 3 4 demo = Some (Returned l, s') ∧
          findShareLink s' (link_id l) = Some l ∧ link_expiresAt l = 4.
Proof.
  destruct (createShareLink strict 3 4 demo) as [[[l|e] s']|] eqn:E;
    [|vm_compute in E; discriminate..].
  exists l, s'. split; [reflexivity|].
  destruct (createShareLink_then_find strict demo s' 3 4 l) as (H1 & _ & H2 & _).
  - destruct demo_wf as (_ & _ & _ & [_ H] & _). exact H.
  - exact E.
  - split; [exact H1|exact H2].
Defined.

(** Deleting Reports removes the link on it and leaves the link on Docs. *)
Lemma deleteFolder_unshares_witness :
  ∃ s', deleteFolder strict 5 3 demo = Some (Returned (), s') ∧
        findShareLink s' 1 = None ∧
        findShareLink s' 2 = Some (mkShareLink 2 2 100).
Proof.
  assert (Hnd : NoDup (link_id <$> shareLinks demo)) by (simpl; compute_done).
  assert (Hb : bounded demo 5 3) by apply acyclic_bounded, demo_acyclic.
  destruct (deleteFolder_unshares strict 5 3 demo (mkShareLink 1 3 5)
              demo_unique_ids Hnd eq_refl Hb) as (s' & Hrun & Hin & _).
  { unfold demo; simpl. set_solver. }
  destruct (deleteFolder_unshares strict 5 3 demo (mkShareLink 2 2 100)
              demo_unique_ids Hnd eq_refl Hb) as (s'' & Hrun' & _ & Hout).
  { unfold demo; simpl. set_solver. }
  assert (s'' = s') as -> by congruence.
  exists s'. split; [exact Hrun|]. split.
  - apply Hin. by left.
  - apply Hout. intros [Heq|Hd]; [done|].
    assert (∀ a x, descendant demo a x → a < x) as Hlt.
    { induction 1 as [a x (f & Hf & <- & Hp)|a c x (f & Hf & <- & Hp) _ IH];
        unfold demo in Hf; simpl in Hf;
        repeat (apply elem_of_cons in Hf as [->|Hf]; [simpl in *; simplify_eq; lia|]);
        by apply elem_of_nil in Hf. }
    apply Hlt in Hd. simpl in Hd. lia.
Defined.

(** Creating Pics in Docs. *)
Lemma createFolder_then_lookup_witness :
  ∃ s', createFolder strict "Pics" 1 (Some 2) demo = Some (Returned (), s') ∧
        Prisma.folder_findUnique s' 5 = Some (mkFolder 5 "Pics" 1 (Some 2)) ∧
        checkFoldernameExist s' "Pics" (Some 2) = true.
Proof.
  destruct (createFolder strict "Pics" 1 (Some 2) demo) as [[[[]|e] s']|] eqn:E;
    [|vm_compute in E; discriminate..].
  exists s'. split; [reflexivity|].
  destruct (createFolder_then_lookup strict demo s' "Pics" 1 (Some 2))
    as (H1 & _ & H2 & _).
  - destruct demo_wf as (_ & [_ H] & _). exact H.
  - exact E.
  - split; [exact H1|exact H2].
Defined.

(** Nine eighths of a kilobyte lie half way between 1.12 and 1.13 KB and are
    shown as the larger. *)
Lemma formatSize_rounds_witness :
  formatSize 1152 = Some "1.13 KB" ∧
  Z.abs (100 * 1152 - 112 * 1024) = Z.abs (100 * 1152 - 113 * 1024) ∧
  ∃ h, formatSize 1152 = Some (show_hundredths h +:+ " KB") ∧
       ∀ k, Z.abs (100 * 1152 - h * 1024) ≤ Z.abs (100 * 1152 - k * 1024).
Proof.
  split; [reflexivity|]. split; [reflexivity|].
  destruct (formatSize_rounds 1152) as (unit & suffix & h & Heq & Hunit & Hnear & _);
    [lia|].
  exists h. destruct Hunit as [(-> & -> & _)|[(_ & _ & ? & _)|(_ & _ & ?)]];
    [|lia..].
  split; [exact Heq|exact Hnear].
Defined.
